(** * bsq: binary search over a sorted, delimiter-separated file

    A shallow embedding of [src/bsq.cc] (the [StringBlock] view, [FindIf],
    the [Run] driver with its three loops, [ExtractArgument] and the
    argument and key handling of [main]) together with the properties the
    specification states about them and further properties of the code.

    Conventions of the embedding.
    - A [char] is its integer value ([Z]); no theorem below depends on the
      signedness of [char].
    - A pointer into an object is an offset ([nat]) from the start of that
      object.  The mapped file is [file cfg]; [config.first] is offset [0]
      and [config.last] is offset [length (file cfg)].
    - Dereferencing an offset outside the object yields [Fault]; so does
      indexing the deque [col_pos] out of range or stepping a pointer below
      offset [0].
    - [throw std::runtime_error(msg)] is [Throw e], where [e] keeps the part
      of the message that varies.
    - Every loop carries a fuel argument supplied by its caller; running out
      of it is the distinguished result [OutOfFuel].
    - The [StringBlock] constructor keeps the range check of the debug
      build; what the debug build prints to [std::cerr] is left out.
    - [std::cout] is the list of bytes written so far. *)

From Stdlib Require Import String Ascii.
From Stdlib Require Import List ZArith Lia Bool Arith.
Import ListNotations.

Set Implicit Arguments.

(** ** Results of fallible code *)

(** A [char], as its integer value. *)
Abbreviation byte := Z (only parsing).

Inductive error : Type :=
| InvalidBlock (distance : Z)        (* "Invalid block with distance: " *)
| NotEnoughColumns (row : list byte) (* "Not enough columns\n" + row *)
| UnorderedInput (row : list byte).  (* "Unordered at row:\n" + row *)

Inductive res (A : Type) : Type :=
| Ok (a : A)
| Throw (e : error)
| Fault
| OutOfFuel.

Arguments Ok {A} a.
Arguments Throw {A} e.
Arguments Fault {A}.
Arguments OutOfFuel {A}.

Definition bind {A B : Type} (r : res A) (k : A -> res B) : res B :=
  match r with
  | Ok a => k a
  | Throw e => Throw e
  | Fault => Fault
  | OutOfFuel => OutOfFuel
  end.

Notation "x <- r ;; k" := (bind r (fun x => k))
  (at level 61, r at next level, right associativity).
Notation "' pat <- r ;; k" := (bind r (fun x => match x with pat => k end))
  (at level 61, pat pattern, r at next level, right associativity).

(** Propagation of a failure into a computation that also writes output;
    it is only ever applied to a result that is not [Ok]. *)
Definition fail_as {A B : Type} (r : res A) : res B :=
  match r with
  | Ok _ => Fault
  | Throw e => Throw e
  | Fault => Fault
  | OutOfFuel => OutOfFuel
  end.

(** [*p] for a pointer at offset [p] of the object [mem]. *)
Definition deref (mem : list byte) (p : nat) : res byte :=
  match nth_error mem p with
  | Some c => Ok c
  | None => Fault
  end.

(** The bytes of the half-open range [[a, b)] of [mem]. *)
Definition slice (mem : list byte) (a b : nat) : list byte :=
  firstn (b - a) (skipn a mem).

(** [std::string(first, last)] over the object [mem]. *)
Definition string_of (mem : list byte) (first last : nat) : res (list byte) :=
  if (first <=? last) && (last <=? length mem) then Ok (slice mem first last)
  else Fault.

(** [std::toupper] in the C locale. *)
Definition toupper (c : Z) : Z :=
  if ((97 <=? c) && (c <=? 122))%Z then (c - 32)%Z else c.

(** The two character transforms handed to [Compare] and [IsPrefixOf]. *)
Definition transform (fold : bool) : byte -> Z :=
  if fold then toupper else (fun c => c).

(** ** StringBlock *)

Module StringBlock.

Record t : Type := mk { mem : list byte; first : nat; last : nat }.

(** [StringBlock(const char *first, const char *last)], with the check of
    the debug build. *)
Definition make (m : list byte) (first last : nat) : res t :=
  if last <? first
  then Throw (InvalidBlock (Z.of_nat last - Z.of_nat first))
  else Ok (mk m first last).

(** [StringBlock(std::string const &str)] *)
Definition of_string (str : list byte) : t := mk str 0 (length str).

Definition Distance (b : t) : Z := (Z.of_nat (last b) - Z.of_nat (first b))%Z.

(** The bytes a block denotes. *)
Definition bytes (b : t) : list byte := slice (mem b) (first b) (last b).

Definition valid (b : t) : Prop :=
  first b <= last b /\ last b <= length (mem b).

Fixpoint Compare_loop (fuel : nat) (f : byte -> Z) (this that : t)
         (pos1 pos2 : nat) : res Z :=
  match fuel with
  | O => OutOfFuel
  | S k =>
    if (pos1 <? last this) && (pos2 <? last that) then
      c1 <- deref (mem this) pos1 ;;
      c2 <- deref (mem that) pos2 ;;
      if (f c1 =? f c2)%Z
      then Compare_loop k f this that (S pos1) (S pos2)
      else Ok (f c2 - f c1)%Z
    else
      Ok ((Z.of_nat (last that) - Z.of_nat pos2)
          - (Z.of_nat (last this) - Z.of_nat pos1))%Z
  end.

Definition Compare (this that : t) (f : byte -> Z) : res Z :=
  Compare_loop (S (last this - first this)) f this that
               (first this) (first that).

Fixpoint IsPrefixOf_loop (fuel : nat) (f : byte -> Z) (this that : t)
         (pos1 pos2 : nat) : res bool :=
  match fuel with
  | O => OutOfFuel
  | S k =>
    if (pos1 <? last this) && (pos2 <? last that) then
      c1 <- deref (mem this) pos1 ;;
      c2 <- deref (mem that) pos2 ;;
      if (f c1 =? f c2)%Z
      then IsPrefixOf_loop k f this that (S pos1) (S pos2)
      else Ok false
    else Ok (pos1 =? last this)
  end.

Definition IsPrefixOf (this that : t) (f : byte -> Z) : res bool :=
  if (Distance this >? Distance that)%Z then Ok false
  else IsPrefixOf_loop (S (last this - first this)) f this that
                       (first this) (first that).

(** [operator<<]: [os.write(string.first, string.Distance())] *)
Definition write (os : list byte) (b : t) : list byte * res unit :=
  match string_of (mem b) (first b) (last b) with
  | Ok s => (os ++ s, Ok tt)
  | r => (os, fail_as r)
  end.

End StringBlock.

(** ** FindIf *)

(** [FindIf(first, last, pred)] for an iterator type [It] with equality
    [eqb] and increment [next]; the predicate receives the iterator itself
    and may update the state [St] it captured by reference. *)
Fixpoint FindIf {It St : Type} (eqb : It -> It -> bool) (next : It -> It)
         (fuel : nat) (first last : It)
         (pred : It -> St -> res (bool * St)) (st : St) : res (It * St) :=
  match fuel with
  | O => OutOfFuel
  | S k =>
    if eqb first last then Ok (first, st)
    else
      '(b, st') <- pred first st ;;
      if (b : bool) then Ok (first, st')
      else FindIf eqb next k (next first) last pred st'
  end.

(** [std::reverse_iterator<char const *>]: dereferencing reads the byte just
    before [base]; incrementing moves [base] down. *)
Record reverse_iterator : Type := make_reverse_iterator { base : nat }.

Definition rev_eqb (a b : reverse_iterator) : bool := base a =? base b.
Definition rev_next (a : reverse_iterator) : reverse_iterator :=
  make_reverse_iterator (base a - 1).
Definition rev_deref (mem : list byte) (a : reverse_iterator) : res byte :=
  match base a with
  | O => Fault
  | S p => deref mem p
  end.

(** ** Config and Run *)

Record Config : Type := mkConfig {
  col_sep : byte;
  row_sep : byte;
  check : bool;
  exact_match : bool;
  fold : bool;
  col : nat;
  file : list byte   (* the mapped range [first, last) *)
}.

Definition first (config : Config) : nat := 0.
Definition last (config : Config) : nat := length (file config).

Section Run.

Variable config : Config.

(** The deque [col_pos] is threaded through the three closures that
    capture it by reference. *)

Definition FindRowBegin (pos lb : nat) (col_pos : list nat)
  : res (nat * list nat) :=
  '(it, col_pos) <-
    FindIf rev_eqb rev_next (S (pos - lb))
           (make_reverse_iterator pos) (make_reverse_iterator lb)
           (fun pos col_pos =>
              c <- rev_deref (file config) pos ;;
              if (c =? row_sep config)%Z then Ok (true, col_pos)
              else if (c =? col_sep config)%Z
                   then Ok (false, base pos :: col_pos)
                   else Ok (false, col_pos))
           col_pos ;;
  let first := base it in
  Ok (first, first :: col_pos).

Definition FindRowEnd (pos ub : nat) (col_pos : list nat)
  : res (nat * list nat) :=
  '(last, col_pos) <-
    FindIf Nat.eqb S (S (ub - pos)) pos ub
           (fun pos col_pos =>
              c <- deref (file config) pos ;;
              if (c =? row_sep config)%Z then Ok (true, col_pos)
              else if (c =? col_sep config)%Z
                   then Ok (false, col_pos ++ [pos + 1])
                   else Ok (false, col_pos))
           col_pos ;;
  Ok (last, col_pos ++ [last + 1]).

(** [col_pos[i]] *)
Definition at_index (col_pos : list nat) (i : nat) : res nat :=
  match nth_error col_pos i with
  | Some p => Ok p
  | None => Fault
  end.

(** [col_pos[config.col - 1]] with [config.col = 0] would index the deque
    at [-1]; [col_pos[config.col] - 1] on an entry [0] would step below the
    start of the buffer. *)
Definition GetColumn (col_pos : list nat) (first last : nat)
  : res StringBlock.t :=
  if length col_pos <? col config + 1 then
    row <- string_of (file config) first last ;;
    Throw (NotEnoughColumns row)
  else
    match col config with
    | O => Fault
    | S c =>
      a <- at_index col_pos c ;;
      b <- at_index col_pos (S c) ;;
      match b with
      | O => Fault
      | S e => StringBlock.make (file config) a e
      end
    end.

Definition Compare (a b : StringBlock.t) : res Z :=
  if fold config
  then StringBlock.Compare a b toupper
  else StringBlock.Compare a b (fun c => c).

Definition IsPrefixOf (a b : StringBlock.t) : res bool :=
  if fold config
  then StringBlock.IsPrefixOf a b toupper
  else StringBlock.IsPrefixOf a b (fun c => c).

Definition IsExactMatch (key col : StringBlock.t) : res bool :=
  c <- Compare key col ;; Ok (c =? 0)%Z.

Definition IsPrefixMatch (key col : StringBlock.t) : res bool :=
  IsPrefixOf key col.

(** The check branch: [while (lb < ub) { ... }] of lines 205-216. *)
Fixpoint check_loop (fuel : nat) (prev : StringBlock.t) (lb ub : nat)
  : res unit :=
  match fuel with
  | O => OutOfFuel
  | S k =>
    if lb <? ub then
      let col_pos := [lb] in
      let first := lb in
      '(last, col_pos) <- FindRowEnd lb ub col_pos ;;
      column <- GetColumn col_pos first last ;;
      c <- Compare prev column ;;
      if (c <? 0)%Z then
        row <- string_of (file config) first last ;;
        Throw (UnorderedInput row)
      else check_loop k column (last + 1) ub
    else Ok tt
  end.

(** The binary search loop of lines 226-239; returns the final [lb], [ub].
    The block built from [first] and [last] is the one the debug build
    prints to [std::cerr]; the diagnostic stream itself is not modelled. *)
Fixpoint search_loop (fuel : nat) (search_key : StringBlock.t) (lb ub : nat)
  : res (nat * nat) :=
  match fuel with
  | O => OutOfFuel
  | S k =>
    if lb <? ub then
      let pos := lb + (ub - lb) / 2 in
      '(first, col_pos) <- FindRowBegin pos lb [] ;;
      '(last, col_pos) <- FindRowEnd pos ub col_pos ;;
      column <- GetColumn col_pos first last ;;
      _ <- StringBlock.make (file config) first last ;;
      c <- Compare search_key column ;;
      if (c >=? 0)%Z then search_loop k search_key lb first
      else search_loop k search_key (last + 1) ub
    else Ok (lb, ub)
  end.

(** The forward scan loop of lines 249-264; [os] is what has been written
    to [std::cout] so far. *)
Fixpoint scan_loop (fuel : nat) (search_key : StringBlock.t) (lb ub : nat)
         (os : list byte) : list byte * res unit :=
  match fuel with
  | O => (os, OutOfFuel)
  | S k =>
    if lb <? ub then
      let col_pos := [lb] in
      let first := lb in
      match
        ('(last, col_pos) <- FindRowEnd lb ub col_pos ;;
         column <- GetColumn col_pos first last ;;
         is_match <- (if exact_match config
                      then IsExactMatch search_key column
                      else IsPrefixMatch search_key column) ;;
         Ok (last, is_match))
      with
      | Ok (last, is_match) =>
        if (is_match : bool) then
          match StringBlock.make (file config) first last with
          | Ok row =>
            match StringBlock.write os row with
            | (os, Ok _) =>
              scan_loop k search_key (last + 1) ub (os ++ [row_sep config])
            | (os, r) => (os, r)
            end
          | r => (os, fail_as r)
          end
        else (os, Ok tt)
      | r => (os, fail_as r)
      end
    else (os, Ok tt)
  end.

Definition Run (key : list byte) : list byte * res unit :=
  if first config =? last config then ([], Ok tt)
  else
    let search_key := StringBlock.of_string key in
    let lb := first config in
    let ub := last config in
    if check config then
      match StringBlock.make (file config) lb lb with
      | Ok prev => ([], check_loop (S (ub - lb)) prev lb ub)
      | r => ([], fail_as r)
      end
    else
      match search_loop (S (ub - lb)) search_key lb ub with
      | Ok (lb, _) =>
        let ub := last config in
        scan_loop (S (ub - lb)) search_key lb ub []
      | r => ([], fail_as r)
      end.

End Run.

(** ** Concrete inputs *)

Definition bytes_of_string (s : string) : list byte :=
  map (fun a => Z.of_nat (nat_of_ascii a)) (list_ascii_of_string s).

Definition TAB : byte := 9%Z.
Definition LF : byte := 10%Z.

Definition line (key val : string) : list byte :=
  bytes_of_string key ++ [TAB] ++ bytes_of_string val ++ [LF].

Definition default_config (buf : list byte) : Config :=
  mkConfig TAB LF false false false 1 buf.

Definition fruit : list byte :=
  line "apple" "1" ++ line "apple" "2" ++ line "banana" "3"
  ++ line "banana" "4" ++ line "cherry" "5".


(** ** Specification-level notions *)

(** Lexicographic comparison of two byte strings after the transform [f],
    with the sign convention of [StringBlock::Compare]. *)
Fixpoint compare_bytes (f : byte -> Z) (a b : list byte) : Z :=
  match a, b with
  | x :: a', y :: b' =>
    if (f x =? f y)%Z then compare_bytes f a' b' else (f y - f x)%Z
  | _, _ => (Z.of_nat (length b) - Z.of_nat (length a))%Z
  end.

(** [k] is a prefix of [c] after the transform [f]. *)
Fixpoint prefixb (f : byte -> Z) (k c : list byte) : bool :=
  match k, c with
  | [], _ => true
  | _ :: _, [] => false
  | x :: k', y :: c' => (f x =? f y)%Z && prefixb f k' c'
  end.

(** The rows of a buffer: maximal runs without the row separator; a
    separator that ends the buffer does not open a further, empty row. *)
Fixpoint rows (rs : byte) (buf : list byte) : list (list byte) :=
  match buf with
  | [] => []
  | c :: t =>
    if (c =? rs)%Z then [] :: rows rs t
    else match rows rs t with
         | [] => [[c]]
         | r :: rr => (c :: r) :: rr
         end
  end.

(** The columns of a row. *)
Fixpoint fields (cs : byte) (row : list byte) : list (list byte) :=
  match row with
  | [] => [[]]
  | c :: t =>
    if (c =? cs)%Z then [] :: fields cs t
    else match fields cs t with
         | [] => [[c]]
         | x :: xs => (c :: x) :: xs
         end
  end.

Definition key_column (config : Config) (row : list byte) : list byte :=
  nth (col config - 1) (fields (col_sep config) row) [].

Definition enough_columns (config : Config) (row : list byte) : bool :=
  col config <=? length (fields (col_sep config) row).

(** What the scans leave in [col_pos] for a row that starts at offset [off]:
    the row start, the offset after every column separator, and the offset
    after the row's terminator. *)
Fixpoint colstarts (cs : byte) (off : nat) (r : list byte) : list nat :=
  match r with
  | [] => []
  | c :: t =>
    if (c =? cs)%Z then S off :: colstarts cs (S off) t
    else colstarts cs (S off) t
  end.

Definition bounds (cs : byte) (off : nat) (row : list byte) : list nat :=
  off :: colstarts cs off row ++ [off + length row + 1].

(** [sortedb leb l]: every element is [leb] its successor. *)
Fixpoint sortedb {A : Type} (leb : A -> A -> bool) (l : list A) : bool :=
  match l with
  | [] => true
  | x :: t =>
    match t with
    | [] => true
    | y :: _ => leb x y && sortedb leb t
    end
  end.

(** "[a] is not after [b]" under the configured comparator, decided the way
    the checker decides it: [Compare(a, b)] is not negative. *)
Definition key_leb (config : Config) (a b : list byte) : bool :=
  match Compare config (StringBlock.of_string a) (StringBlock.of_string b) with
  | Ok z => (0 <=? z)%Z
  | _ => false
  end.

(** The buffer's rows are sorted by the key column. *)
Definition sorted_by_key (config : Config) : bool :=
  sortedb (key_leb config)
          (map (key_column config) (rows (row_sep config) (file config))).

(** Every row of the buffer has at least [col] columns. *)
Definition all_enough_columns (config : Config) : bool :=
  forallb (enough_columns config) (rows (row_sep config) (file config)).

(** The match policies on key columns. *)
Definition exact_matchb (config : Config) (key column : list byte) : bool :=
  (compare_bytes (transform (fold config)) key column =? 0)%Z.

Definition prefix_matchb (config : Config) (key column : list byte) : bool :=
  prefixb (transform (fold config)) key column.

Definition is_matchb (config : Config) (key column : list byte) : bool :=
  if exact_match config then exact_matchb config key column
  else prefix_matchb config key column.

(** What is written to the output for a list of rows: each row followed by
    the row separator. *)
Definition emit (config : Config) (rws : list (list byte)) : list byte :=
  flat_map (fun r => r ++ [row_sep config]) rws.

(** The buffer ends with the row separator (or is empty). *)
Definition terminatedb (config : Config) (buf : list byte) : bool :=
  match rev buf with
  | [] => true
  | c :: _ => (c =? row_sep config)%Z
  end.

(** Offset of the first row, among [rws] laid out from offset [off], whose
    key column is not before [key]. *)
Fixpoint first_geq_offset (config : Config) (key : list byte) (off : nat)
         (rws : list (list byte)) : option nat :=
  match rws with
  | [] => None
  | r :: rest =>
    if key_leb config key (key_column config r) then Some off
    else first_geq_offset config key (off + length r + 1) rest
  end.

(** A stretch of bytes without the row separator. *)
Definition rs_free (config : Config) (r : list byte) : Prop :=
  Forall (fun c => c <> row_sep config) r.

(** A stretch of the file that is empty or ends with the row separator: the
    offset just after it is the first byte of a row. *)
Definition terminated (config : Config) (X : list byte) : Prop :=
  X = [] \/ exists X', X = X' ++ [row_sep config].

(** The search key is after the key column of row [r]. *)
Definition key_after (config : Config) (key r : list byte) : Prop :=
  key_leb config key (key_column config r) = false.

(** The search key is not after the key column of row [r]. *)
Definition key_not_after (config : Config) (key r : list byte) : Prop :=
  key_leb config key (key_column config r) = true.

(** Where the binary search loop ends: at a row start [lb = ub] that
    separates the rows before the key from the rows not before it; or one
    past the end of a buffer whose final row has no row separator, when
    every row is before the key. *)
Definition search_post (config : Config) (key : list byte) (lb ub : nat)
  : Prop :=
  (exists A B,
      file config = A ++ B /\ terminated config A
      /\ lb = length A /\ ub = lb
      /\ Forall (key_after config key) (rows (row_sep config) A)
      /\ Forall (key_not_after config key) (rows (row_sep config) B))
  \/ (lb = length (file config) + 1 /\ ub = length (file config)
      /\ terminatedb config (file config) = false
      /\ Forall (key_after config key)
                (rows (row_sep config) (file config))).

(** The forward scan, told on the rows from the scan's starting point. *)
Fixpoint scan_rows (config : Config) (key : list byte)
         (rws : list (list byte)) (os : list byte) : list byte * res unit :=
  match rws with
  | [] => (os, Ok tt)
  | r :: rest =>
    if enough_columns config r then
      if is_matchb config key (key_column config r)
      then scan_rows config key rest (os ++ r ++ [row_sep config])
      else (os, Ok tt)
    else (os, Throw (NotEnoughColumns r))
  end.

(** The sortedness check, told on the rows from the check's current point,
    [prev] being the key column of the row before. *)
Fixpoint check_rows (config : Config) (prev : list byte)
         (rws : list (list byte)) : res unit :=
  match rws with
  | [] => Ok tt
  | r :: rest =>
    if enough_columns config r then
      if key_leb config prev (key_column config r)
      then check_rows config (key_column config r) rest
      else Throw (UnorderedInput r)
    else Throw (NotEnoughColumns r)
  end.

(** Concrete configurations for the examples. *)
Definition exact_config (buf : list byte) : Config :=
  mkConfig TAB LF false true false 1 buf.

Definition check_config (buf : list byte) : Config :=
  mkConfig TAB LF true false false 1 buf.

(** The lower-bound property in the form "the loop ends with [lb == ub], at
    the offset of the first row whose key column is not before the key, or
    at the buffer end if there is no such row". *)
Definition lower_bound_at_equal_bounds (config : Config) (key : list byte)
  : Prop :=
  exists lb,
    search_loop config (S (last config - first config))
                (StringBlock.of_string key) (first config) (last config)
    = Ok (lb, lb)
    /\ lb = match first_geq_offset config key 0
                                   (rows (row_sep config) (file config)) with
            | Some o => o
            | None => length (file config)
            end.

(** "[a] sorts at or before [b]": lexicographic order on the transformed
    bytes, a string sorting before each of its proper extensions.  This
    follows the specification's wording and is compared with [key_leb]
    below. *)
Fixpoint lex_leb (f : byte -> Z) (a b : list byte) : bool :=
  match a, b with
  | [], _ => true
  | _ :: _, [] => false
  | x :: a', y :: b' =>
    if (f x <? f y)%Z then true
    else if (f x =? f y)%Z then lex_leb f a' b'
         else false
  end.

(** The checker's failure condition in the form "the row at [lb] is
    rejected exactly when [Compare(previousColumn, column)] is positive". *)
Definition unordered_iff_compare_positive (config : Config)
           (prev : StringBlock.t) (lb : nat) : Prop :=
  forall row_end col_pos column z,
    FindRowEnd config lb (last config) [lb] = Ok (row_end, col_pos) ->
    GetColumn config col_pos lb row_end = Ok column ->
    Compare config prev column = Ok z ->
    ((exists row, check_loop config (S (last config - lb)) prev lb
                             (last config)
                  = Throw (UnorderedInput row))
     <-> (0 < z)%Z).

(** The trailing entry of [col_pos] in the form "the entry appended last by
    [FindRowEnd] is the position one past the row's last byte", which is the
    row end that [FindRowEnd] returns. *)
Definition trailing_entry_is_row_end (config : Config) (pos ub : nat)
           (col_pos : list nat) : Prop :=
  forall row_end col_pos',
    FindRowEnd config pos ub col_pos = Ok (row_end, col_pos') ->
    List.last col_pos' 0 = row_end.

Definition unordered_buffer : list byte :=
  bytes_of_string "b" ++ [LF] ++ bytes_of_string "a" ++ [LF].

(** The one-row buffer "a", without a row separator, and the same row
    followed by its separator. *)
Definition unterminated_config : Config :=
  default_config (bytes_of_string "a").

Definition single_row_config : Config :=
  default_config (bytes_of_string "a" ++ [LF]).

(** Check mode over the buffer "b\na\n". *)
Definition unordered_config : Config := check_config unordered_buffer.

(** The fruit buffer keyed on its second column. *)
Definition second_column_config : Config :=
  mkConfig TAB LF false false false 2 fruit.

(** The same configuration over another buffer. *)
Definition with_file (config : Config) (buf : list byte) : Config :=
  mkConfig (col_sep config) (row_sep config) (check config)
           (exact_match config) (fold config) (col config) buf.

(** ** The command line of [main]

    The argument vector is a list of byte strings and an iterator into it
    is the suffix that starts at its position.  [std::stoi] belongs to the
    standard library: it is a parameter [stoi], [None] when it throws. *)

Inductive cli_error : Type :=
| ArgumentNotFound (arg : list byte)  (* "Argument not found: " + *pos *)
| InvalidOption (text : list byte)    (* "Invalid option: " + text *)
| InvalidArgument (arg : list byte)   (* "Invalid argument: " + *it *)
| KeyColumnRange                      (* "N must be within [1, 255]" *)
| StoiFailure (arg : list byte).      (* what std::stoi throws *)

(** A value; a thrown [std::exception]; a call of [front()] on an empty
    string or a dereference of the end iterator; the fuel of a loop running
    out. *)
Inductive cli (A : Type) : Type :=
| Done (a : A)
| Raise (e : cli_error)
| Undefined
| Exhausted.

Arguments Done {A} a.
Arguments Raise {A} e.
Arguments Undefined {A}.
Arguments Exhausted {A}.

Definition cli_bind {A B : Type} (r : cli A) (k : A -> cli B) : cli B :=
  match r with
  | Done a => k a
  | Raise e => Raise e
  | Undefined => Undefined
  | Exhausted => Exhausted
  end.

Definition DASH : byte := 45%Z.
Definition CHAR_c : byte := 99%Z.
Definition CHAR_f : byte := 102%Z.
Definition CHAR_h : byte := 104%Z.
Definition CHAR_k : byte := 107%Z.
Definition CHAR_t : byte := 116%Z.
Definition CHAR_w : byte := 119%Z.

(** [s.front()] *)
Definition front (s : list byte) : cli byte :=
  match s with
  | [] => Undefined
  | c :: _ => Done c
  end.

(** [ExtractArgument(pos, last, parse)]: the value and the position [pos]
    is left at. *)
Definition ExtractArgument {T : Type} (pos : list (list byte))
           (parse : list byte -> cli T) : cli (T * list (list byte)) :=
  match pos with
  | [] => Undefined
  | cur :: next =>
    if 2 <? length cur then
      cli_bind (parse (skipn 2 cur)) (fun v => Done (v, pos))
    else
      match next with
      | [] => Raise (ArgumentNotFound cur)
      | arg :: _ =>
        if negb (length arg =? 0)
        then cli_bind (parse arg) (fun v => Done (v, next))
        else Raise (ArgumentNotFound arg)
      end
  end.

(** The locals of [main] that the argument loop updates. *)
Record Args : Type := mkArgs {
  args_config : Config;
  filename : list byte;
  search_keys : list (list byte);
  read_literal : bool
}.

(** [Config config;] with its default member initializers; the mapped
    range is empty until the file is mapped. *)
Definition initial_config : Config :=
  mkConfig TAB LF false false false 1 [].

Definition initial_args : Args := mkArgs initial_config [] [] false.

Definition set_col_sep (c : Config) (v : byte) : Config :=
  mkConfig v (row_sep c) (check c) (exact_match c) (fold c) (col c) (file c).

Definition set_col (c : Config) (n : nat) : Config :=
  mkConfig (col_sep c) (row_sep c) (check c) (exact_match c) (fold c) n
           (file c).

Definition set_check (c : Config) : Config :=
  mkConfig (col_sep c) (row_sep c) true (exact_match c) (fold c) (col c)
           (file c).

Definition set_exact_match (c : Config) : Config :=
  mkConfig (col_sep c) (row_sep c) (check c) true (fold c) (col c) (file c).

Definition set_fold (c : Config) : Config :=
  mkConfig (col_sep c) (row_sep c) (check c) (exact_match c) true (col c)
           (file c).

(** The [std::for_each] over the characters of a flag group. *)
Fixpoint set_flags (chars : list byte) (c : Config) : cli Config :=
  match chars with
  | [] => Done c
  | ch :: rest =>
    if (ch =? CHAR_w)%Z then set_flags rest (set_exact_match c)
    else if (ch =? CHAR_c)%Z then set_flags rest (set_check c)
    else if (ch =? CHAR_f)%Z then set_flags rest (set_fold c)
    else Raise (InvalidOption [DASH; ch])
  end.

(** [*it == "--"] *)
Definition is_double_dash (s : list byte) : bool :=
  match s with
  | [a; b] => ((a =? DASH) && (b =? DASH))%Z
  | _ => false
  end.

(** A positional argument becomes the file name when there is none yet,
    and a search key otherwise. *)
Definition take_positional (st : Args) (s : list byte) : Args :=
  match filename st with
  | [] => mkArgs (args_config st) s (search_keys st) false
  | _ => mkArgs (args_config st) (filename st) (search_keys st ++ [s]) false
  end.

(** How the argument loop ends: in [return Usage(...)] or at [args.end()]. *)
Inductive loop_end : Type :=
| UsageShown
| LoopDone (st : Args).

Inductive parse_outcome : Type :=
| ShowUsage
| Parsed (config : Config) (filename : list byte)
         (search_keys : list (list byte)).

Section CommandLine.

Variable stoi : list byte -> option Z.

Definition ExtractChar (s : list byte) : cli byte := front s.

Definition ExtractInt (s : list byte) : cli Z :=
  match stoi s with
  | Some n => Done n
  | None => Raise (StoiFailure s)
  end.

(** The [for] loop of lines 282-332. *)
Fixpoint parse_loop (fuel : nat) (it : list (list byte)) (st : Args)
  : cli loop_end :=
  match fuel with
  | O => Exhausted
  | S k =>
    match it with
    | [] => Done (LoopDone st)
    | cur :: rest =>
      if is_double_dash cur then
        parse_loop k rest
                   (mkArgs (args_config st) (filename st) (search_keys st)
                           true)
      else if (2 <=? length cur) && (nth 0 cur 0 =? DASH)%Z
              && negb (read_literal st) then
        let opt := nth 1 cur 0%Z in
        if (opt =? CHAR_h)%Z then Done UsageShown
        else if ((opt =? CHAR_c) || (opt =? CHAR_w) || (opt =? CHAR_f))%Z then
          cli_bind (set_flags (tl cur) (args_config st)) (fun c =>
          parse_loop k rest
                     (mkArgs c (filename st) (search_keys st) false))
        else if (opt =? CHAR_t)%Z then
          cli_bind (ExtractArgument it ExtractChar) (fun r =>
          parse_loop k (tl (snd r))
                     (mkArgs (set_col_sep (args_config st) (fst r))
                             (filename st) (search_keys st) false))
        else if (opt =? CHAR_k)%Z then
          cli_bind (ExtractArgument it ExtractInt) (fun r =>
          if ((fst r >? 255) || (fst r <? 1))%Z then Raise KeyColumnRange
          else
            parse_loop k (tl (snd r))
                       (mkArgs (set_col (args_config st) (Z.to_nat (fst r)))
                               (filename st) (search_keys st) false))
        else Raise (InvalidArgument cur)
      else
        cli_bind (front cur) (fun c0 =>
        if negb (c0 =? DASH)%Z || read_literal st
        then parse_loop k rest (take_positional st cur)
        else Raise (InvalidOption cur))
    end
  end.

(** Lines 267-335 of [main]: the arguments after the program name are
    parsed, and a missing file name ends in the usage message. *)
Definition parse_args (args : list (list byte)) : cli parse_outcome :=
  match args with
  | [] => Undefined
  | _ :: rest =>
    cli_bind (parse_loop (S (length rest)) rest initial_args) (fun e =>
    match e with
    | UsageShown => Done ShowUsage
    | LoopDone st =>
      match filename st with
      | [] => Done ShowUsage
      | _ => Done (Parsed (args_config st) (filename st) (search_keys st))
      end
    end)
  end.

End CommandLine.

(** [std::getline(std::cin, key, delim)] on a non-empty remaining input:
    the key and what remains after the delimiter. *)
Fixpoint getline (delim : byte) (input : list byte)
  : list byte * list byte :=
  match input with
  | [] => ([], [])
  | c :: t =>
    if (c =? delim)%Z then ([], t)
    else let (key, rest) := getline delim t in (c :: key, rest)
  end.

(** [while (std::getline(std::cin, key, config.row_sep))
      search_keys.push_back(std::move(key));]
    [getline] fails, and the loop ends, when nothing is left to extract. *)
Fixpoint read_keys (fuel : nat) (delim : byte) (input : list byte)
  : cli (list (list byte)) :=
  match fuel with
  | O => Exhausted
  | S k =>
    match input with
    | [] => Done []
    | _ :: _ =>
      let (key, rest) := getline delim input in
      cli_bind (read_keys k delim rest) (fun keys => Done (key :: keys))
    end
  end.

(** Lines 348-355 of [main]: the keys that will be searched. *)
Definition select_keys (config : Config) (search_keys : list (list byte))
           (stdin : list byte) : cli (list (list byte)) :=
  if check config then Done [[]]
  else match search_keys with
       | [] => read_keys (S (length stdin)) (row_sep config) stdin
       | _ :: _ => Done search_keys
       end.

(** Lines 357-358 of [main]: [for (const auto &key: search_keys)
    Run(config, key);], an exception ending the loop; [os] is what has been
    written to [std::cout] so far. *)
Fixpoint run_keys (config : Config) (keys : list (list byte))
         (os : list byte) : list byte * res unit :=
  match keys with
  | [] => (os, Ok tt)
  | key :: rest =>
    match Run config key with
    | (o, Ok _) => run_keys config rest (os ++ o)
    | (o, r) => (os ++ o, r)
    end
  end.

(** A string that can have been taken as file name or search key. *)
Definition positionalb (s : list byte) : bool :=
  negb (length s =? 0) && negb (is_double_dash s).

(** A non-empty string that does not start with a dash. *)
Definition plainb (s : list byte) : bool :=
  match s with
  | [] => false
  | c :: _ => negb (c =? DASH)%Z
  end.

Definition nonemptyb (s : list byte) : bool := negb (length s =? 0).

(** What the argument loop keeps true of the locals of [main]. *)
Definition args_ok (st : Args) : Prop :=
  1 <= col (args_config st) /\ col (args_config st) <= 255
  /\ row_sep (args_config st) = LF
  /\ file (args_config st) = []
  /\ (filename st = [] \/ positionalb (filename st) = true)
  /\ forallb positionalb (search_keys st) = true.

(** ** Byte ranges *)

Lemma skipn_nth_cons : forall (mem : list byte) p,
    p < length mem ->
    exists c, nth_error mem p = Some c /\ skipn p mem = c :: skipn (S p) mem.
Proof.
  induction mem as [|x mem IH]; intros p Hp; simpl in Hp; [lia|].
  destruct p as [|p].
  - exists x. split; reflexivity.
  - destruct (IH p) as (c & H1 & H2); [lia|].
    exists c. split; [exact H1|]. simpl. exact H2.
Qed.

Lemma slice_nil : forall (mem : list byte) a b, b <= a -> slice mem a b = [].
Proof.
  intros mem a b H. unfold slice. replace (b - a) with 0 by lia. reflexivity.
Qed.

Lemma slice_cons : forall (mem : list byte) a b,
    a < b -> b <= length mem ->
    exists c, nth_error mem a = Some c /\ slice mem a b = c :: slice mem (S a) b.
Proof.
  intros mem a b Hab Hb.
  destruct (@skipn_nth_cons mem a) as (c & H1 & H2); [lia|].
  exists c. split; [exact H1|].
  unfold slice. rewrite H2.
  replace (b - a) with (S (b - S a)) by lia. reflexivity.
Qed.

Lemma slice_app_mid : forall (X r Y : list byte),
    slice (X ++ r ++ Y) (length X) (length X + length r) = r.
Proof.
  intros X r Y. unfold slice.
  rewrite skipn_app, skipn_all, Nat.sub_diag. simpl.
  replace (length X + length r - length X) with (length r) by lia.
  rewrite firstn_app, firstn_all, Nat.sub_diag. simpl. apply app_nil_r.
Qed.

Lemma nth_error_app_mid : forall (X Y : list byte) c,
    nth_error (X ++ c :: Y) (length X) = Some c.
Proof.
  intros X Y c. rewrite nth_error_app2 by lia. rewrite Nat.sub_diag. reflexivity.
Qed.

Lemma deref_app_mid : forall (X Y : list byte) c,
    deref (X ++ c :: Y) (length X) = Ok c.
Proof. intros. unfold deref. rewrite nth_error_app_mid. reflexivity. Qed.

(** ** StringBlock: [Compare] and [IsPrefixOf] against the list-level notions *)

Lemma compare_bytes_nil_l : forall f b,
    compare_bytes f [] b = Z.of_nat (length b).
Proof. intros f b. destruct b; cbn [compare_bytes length]; lia. Qed.

Lemma compare_bytes_nil_r : forall f a,
    compare_bytes f a [] = (- Z.of_nat (length a))%Z.
Proof. intros f a. destruct a; cbn [compare_bytes length]; lia. Qed.

Lemma Compare_loop_spec : forall f this that fuel pos1 pos2,
    StringBlock.last this <= length (StringBlock.mem this) ->
    StringBlock.last that <= length (StringBlock.mem that) ->
    pos1 <= StringBlock.last this -> pos2 <= StringBlock.last that ->
    StringBlock.last this - pos1 < fuel ->
    StringBlock.Compare_loop fuel f this that pos1 pos2 =
    Ok (compare_bytes f
          (slice (StringBlock.mem this) pos1 (StringBlock.last this))
          (slice (StringBlock.mem that) pos2 (StringBlock.last that))).
Proof.
  intros f this that fuel.
  induction fuel as [|k IH]; intros pos1 pos2 H1 H2 P1 P2 Hf; [lia|].
  simpl.
  destruct (pos1 <? StringBlock.last this) eqn:E1; simpl.
  - apply Nat.ltb_lt in E1.
    destruct (slice_cons (StringBlock.mem this) E1 H1) as (c1 & Hn1 & Hs1).
    destruct (pos2 <? StringBlock.last that) eqn:E2; simpl.
    + apply Nat.ltb_lt in E2.
      destruct (slice_cons (StringBlock.mem that) E2 H2) as (c2 & Hn2 & Hs2).
      unfold deref. rewrite Hn1, Hn2. simpl. rewrite Hs1, Hs2. simpl.
      destruct (f c1 =? f c2)%Z; [|reflexivity].
      apply IH; try assumption; lia.
    + apply Nat.ltb_ge in E2.
      rewrite (slice_nil (StringBlock.mem that) E2), compare_bytes_nil_r.
      f_equal.
      assert (L : length (slice (StringBlock.mem this) pos1 (StringBlock.last this))
                  = StringBlock.last this - pos1).
      { unfold slice. rewrite length_firstn, length_skipn. lia. }
      rewrite L. lia.
  - apply Nat.ltb_ge in E1.
    rewrite (slice_nil (StringBlock.mem this) E1).
    assert (L : length (slice (StringBlock.mem that) pos2 (StringBlock.last that))
                = StringBlock.last that - pos2).
    { unfold slice. rewrite length_firstn, length_skipn. lia. }
    rewrite compare_bytes_nil_l. f_equal. lia.
Qed.

Lemma Compare_spec : forall f this that,
    StringBlock.valid this -> StringBlock.valid that ->
    StringBlock.Compare this that f =
    Ok (compare_bytes f (StringBlock.bytes this) (StringBlock.bytes that)).
Proof.
  intros f this that [V1 H1] [V2 H2]. unfold StringBlock.Compare, StringBlock.bytes.
  apply Compare_loop_spec; try assumption. lia.
Qed.

Lemma IsPrefixOf_loop_spec : forall f this that fuel pos1 pos2,
    StringBlock.last this <= length (StringBlock.mem this) ->
    StringBlock.last that <= length (StringBlock.mem that) ->
    pos1 <= StringBlock.last this -> pos2 <= StringBlock.last that ->
    StringBlock.last this - pos1 < fuel ->
    StringBlock.IsPrefixOf_loop fuel f this that pos1 pos2 =
    Ok (prefixb f
          (slice (StringBlock.mem this) pos1 (StringBlock.last this))
          (slice (StringBlock.mem that) pos2 (StringBlock.last that))).
Proof.
  intros f this that fuel.
  induction fuel as [|k IH]; intros pos1 pos2 H1 H2 P1 P2 Hf; [lia|].
  simpl.
  destruct (pos1 <? StringBlock.last this) eqn:E1; simpl.
  - apply Nat.ltb_lt in E1.
    destruct (slice_cons (StringBlock.mem this) E1 H1) as (c1 & Hn1 & Hs1).
    destruct (pos2 <? StringBlock.last that) eqn:E2; simpl.
    + apply Nat.ltb_lt in E2.
      destruct (slice_cons (StringBlock.mem that) E2 H2) as (c2 & Hn2 & Hs2).
      unfold deref. rewrite Hn1, Hn2. simpl. rewrite Hs1, Hs2. simpl.
      destruct (f c1 =? f c2)%Z; [|reflexivity].
      apply IH; try assumption; lia.
    + apply Nat.ltb_ge in E2.
      rewrite (slice_nil (StringBlock.mem that) E2), Hs1. simpl.
      f_equal. apply Nat.eqb_neq. lia.
  - apply Nat.ltb_ge in E1.
    rewrite (slice_nil (StringBlock.mem this) E1). simpl.
    f_equal. apply Nat.eqb_eq. lia.
Qed.

Lemma prefixb_length : forall f k c,
    prefixb f k c = true -> length k <= length c.
Proof.
  intros f k. induction k as [|x k IH]; intros [|y c] H; simpl in *;
    try lia; try discriminate.
  apply andb_true_iff in H. destruct H as [_ H]. apply IH in H. lia.
Qed.

Lemma length_bytes : forall b,
    StringBlock.valid b ->
    Z.of_nat (length (StringBlock.bytes b)) = StringBlock.Distance b.
Proof.
  intros b [H1 H2]. unfold StringBlock.bytes, StringBlock.Distance, slice.
  rewrite length_firstn, length_skipn. lia.
Qed.

Lemma IsPrefixOf_spec : forall f this that,
    StringBlock.valid this -> StringBlock.valid that ->
    StringBlock.IsPrefixOf this that f =
    Ok (prefixb f (StringBlock.bytes this) (StringBlock.bytes that)).
Proof.
  intros f this that V1 V2. unfold StringBlock.IsPrefixOf.
  destruct (StringBlock.Distance this >? StringBlock.Distance that)%Z eqn:E.
  - f_equal. symmetry. apply not_true_is_false. intro H.
    apply prefixb_length in H.
    rewrite <- !length_bytes in E by assumption. lia.
  - destruct V1 as [V1 H1], V2 as [V2 H2]. unfold StringBlock.bytes.
    apply IsPrefixOf_loop_spec; try assumption. lia.
Qed.

Lemma compare_bytes_prefix : forall f k c,
    prefixb f k c = true ->
    compare_bytes f k c = (Z.of_nat (length c) - Z.of_nat (length k))%Z.
Proof.
  intros f k. induction k as [|x k IH]; intros c H.
  - rewrite compare_bytes_nil_l. simpl. lia.
  - destruct c as [|y c]; simpl in H; [discriminate|].
    apply andb_true_iff in H. destruct H as [E H].
    cbn [compare_bytes]. rewrite E, (IH _ H). cbn [length]. lia.
Qed.

Lemma compare_bytes_first_difference : forall f p q x y ra rb,
    map f p = map f q -> f x <> f y ->
    compare_bytes f (p ++ x :: ra) (q ++ y :: rb) = (f y - f x)%Z.
Proof.
  intros f p. induction p as [|a p IH]; intros [|b q] x y ra rb Hm Hd;
    simpl in Hm; try discriminate.
  - simpl. apply Z.eqb_neq in Hd. rewrite Hd. reflexivity.
  - injection Hm as Hab Hm. simpl. rewrite Hab, Z.eqb_refl.
    apply IH; assumption.
Qed.

Lemma compare_bytes_exhausted : forall f p q ra rb,
    map f p = map f q -> ra = [] \/ rb = [] ->
    compare_bytes f (p ++ ra) (q ++ rb)
    = (Z.of_nat (length rb) - Z.of_nat (length ra))%Z.
Proof.
  intros f p. induction p as [|a p IH]; intros [|b q] ra rb Hm Hn;
    simpl in Hm; try discriminate.
  - simpl. destruct Hn as [-> | ->].
    + rewrite compare_bytes_nil_l. simpl. lia.
    + rewrite compare_bytes_nil_r. simpl. lia.
  - injection Hm as Hab Hm. simpl. rewrite Hab, Z.eqb_refl.
    apply IH; assumption.
Qed.

(** C6: [Compare] returns, at the first position where the transformed bytes
    differ, the difference (byte of [b]) - (byte of [a]); when one range is
    exhausted first it returns (remaining length of [b]) - (remaining length
    of [a]); hence a strict prefix compares less than its extension (the
    result is positive).  This holds for the identity and the uppercase
    transform alike. *)
Theorem Compare_first_difference_or_lengths :
  forall (fold : bool) (a b : StringBlock.t),
    StringBlock.valid a -> StringBlock.valid b ->
    let f := transform fold in
    (forall p x ra q y rb,
        StringBlock.bytes a = p ++ x :: ra ->
        StringBlock.bytes b = q ++ y :: rb ->
        map f p = map f q -> f x <> f y ->
        StringBlock.Compare a b f = Ok (f y - f x)%Z)
    /\ (forall p ra q rb,
           StringBlock.bytes a = p ++ ra ->
           StringBlock.bytes b = q ++ rb ->
           map f p = map f q -> ra = [] \/ rb = [] ->
           StringBlock.Compare a b f
           = Ok (Z.of_nat (length rb) - Z.of_nat (length ra))%Z)
    /\ (forall ext,
           ext <> [] ->
           StringBlock.bytes b = StringBlock.bytes a ++ ext ->
           exists z, StringBlock.Compare a b f = Ok z /\ (0 < z)%Z).
Proof.
  intros fold a b Va Vb f. repeat split.
  - intros p x ra q y rb Ha Hb Hm Hd.
    rewrite Compare_spec, Ha, Hb by assumption.
    f_equal. apply compare_bytes_first_difference; assumption.
  - intros p ra q rb Ha Hb Hm Hn.
    rewrite Compare_spec, Ha, Hb by assumption.
    f_equal. apply compare_bytes_exhausted; assumption.
  - intros ext Hne Hb.
    rewrite Compare_spec, Hb by assumption.
    eexists. split; [reflexivity|].
    rewrite <- (app_nil_r (StringBlock.bytes a)) at 1.
    rewrite compare_bytes_exhausted by auto.
    destruct ext; [congruence|]. cbn [length]. lia.
Qed.

Lemma Compare_first_difference_or_lengths_witness :
  StringBlock.Compare (StringBlock.of_string (bytes_of_string "ab"))
                      (StringBlock.of_string (bytes_of_string "ac"))
                      (transform false) = Ok 1%Z
  /\ StringBlock.Compare (StringBlock.of_string (bytes_of_string "AB"))
                         (StringBlock.of_string (bytes_of_string "abc"))
                         (transform true) = Ok 1%Z.
Proof.
  split.
  - destruct (@Compare_first_difference_or_lengths false
                (StringBlock.of_string (bytes_of_string "ab"))
                (StringBlock.of_string (bytes_of_string "ac"))
                (conj (le_0_n 2) (le_n 2)) (conj (le_0_n 2) (le_n 2)))
      as (H & _ & _).
    apply (H (bytes_of_string "a") 98%Z [] (bytes_of_string "a") 99%Z []);
      try reflexivity.
    vm_compute. discriminate.
  - destruct (@Compare_first_difference_or_lengths true
                (StringBlock.of_string (bytes_of_string "AB"))
                (StringBlock.of_string (bytes_of_string "abc"))
                (conj (le_0_n 2) (le_n 2)) (conj (le_0_n 3) (le_n 3)))
      as (_ & H & _).
    apply (H (bytes_of_string "AB") [] (bytes_of_string "ab")
             (bytes_of_string "c")); try reflexivity.
    left. reflexivity.
Defined.

(** C9: whenever [IsPrefixOf(k, c)] holds, [Compare(k, c)] is non-negative,
    for the identity and the uppercase transform alike. *)
Theorem IsPrefixOf_Compare_nonneg :
  forall (fold : bool) (k c : StringBlock.t),
    StringBlock.valid k -> StringBlock.valid c ->
    StringBlock.IsPrefixOf k c (transform fold) = Ok true ->
    exists z, StringBlock.Compare k c (transform fold) = Ok z /\ (0 <= z)%Z.
Proof.
  intros fold k c Vk Vc H.
  rewrite IsPrefixOf_spec in H by assumption.
  injection H as H.
  rewrite Compare_spec by assumption.
  eexists. split; [reflexivity|].
  rewrite (compare_bytes_prefix _ _ _ H).
  apply prefixb_length in H. lia.
Qed.

Lemma IsPrefixOf_Compare_nonneg_witness :
  exists z,
    StringBlock.Compare (StringBlock.of_string (bytes_of_string "a"))
                        (StringBlock.of_string (bytes_of_string "Abc"))
                        (transform true) = Ok z
    /\ (0 <= z)%Z.
Proof.
  apply (@IsPrefixOf_Compare_nonneg true
           (StringBlock.of_string (bytes_of_string "a"))
           (StringBlock.of_string (bytes_of_string "Abc"))
           (conj (le_0_n 1) (le_n 1)) (conj (le_0_n 3) (le_n 3))).
  reflexivity.
Defined.

(** ** Row scanning *)

Lemma colstarts_app : forall cs r1 r2 off,
    colstarts cs off (r1 ++ r2)
    = colstarts cs off r1 ++ colstarts cs (off + length r1) r2.
Proof.
  intros cs r1. induction r1 as [|c r1 IH]; intros r2 off; simpl.
  - rewrite Nat.add_0_r. reflexivity.
  - rewrite IH. replace (S off + length r1) with (off + S (length r1)) by lia.
    destruct (c =? cs)%Z; reflexivity.
Qed.

(** The forward scan inside [FindRowEnd]: over a separator-free stretch [r]
    that starts at the cursor it stops at the end of [r]. *)
Lemma FindIf_forward : forall config r X Y ub cp fuel,
    file config = X ++ r ++ Y ->
    rs_free config r ->
    length X + length r <= ub ->
    (ub = length X + length r \/ exists Y', Y = row_sep config :: Y') ->
    ub - length X < fuel ->
    FindIf Nat.eqb S fuel (length X) ub
           (fun pos col_pos =>
              c <- deref (file config) pos ;;
              if (c =? row_sep config)%Z then Ok (true, col_pos)
              else if (c =? col_sep config)%Z
                   then Ok (false, col_pos ++ [pos + 1])
                   else Ok (false, col_pos))
           cp
    = Ok (length X + length r, cp ++ colstarts (col_sep config) (length X) r).
Proof.
  intros config r. induction r as [|c r IH]; intros X Y ub cp fuel Hf Hr Hub Hend Hfuel.
  - destruct fuel as [|k]; [lia|]. simpl in *.
    rewrite Nat.add_0_r, app_nil_r.
    destruct (length X =? ub) eqn:E; [reflexivity|].
    apply Nat.eqb_neq in E.
    destruct Hend as [Hend | [Y' ->]]; [lia|].
    rewrite Hf, deref_app_mid. simpl. rewrite Z.eqb_refl. reflexivity.
  - destruct fuel as [|k]; [lia|]. simpl in Hub.
    cbn [FindIf].
    replace (length X =? ub) with false by (symmetry; apply Nat.eqb_neq; lia).
    inversion Hr as [|? ? Hc Hr']; subst.
    assert (Hf' : file config = (X ++ [c]) ++ r ++ Y)
      by (rewrite Hf, <- app_assoc; reflexivity).
    rewrite Hf at 1. simpl app. rewrite deref_app_mid. cbn [bind].
    apply Z.eqb_neq in Hc. rewrite Hc.
    assert (HL : length (X ++ [c]) = S (length X))
      by (rewrite length_app; simpl; lia).
    cbn [colstarts]. destruct (c =? col_sep config)%Z eqn:Ec; cbn [bind].
    + specialize (IH (X ++ [c]) Y ub (cp ++ [length X + 1]) k Hf' Hr').
      rewrite HL in IH. rewrite IH; try lia.
      * f_equal. f_equal; [simpl; lia|].
        rewrite <- app_assoc. simpl. rewrite Nat.add_1_r. reflexivity.
      * simpl in Hend. destruct Hend as [Hend|Hend]; [left; lia | right; exact Hend].
    + specialize (IH (X ++ [c]) Y ub cp k Hf' Hr').
      rewrite HL in IH. rewrite IH; try lia.
      * f_equal. f_equal. simpl; lia.
      * simpl in Hend. destruct Hend as [Hend|Hend]; [left; lia | right; exact Hend].
Qed.

Lemma FindRowEnd_spec : forall config r X Y ub cp,
    file config = X ++ r ++ Y ->
    rs_free config r ->
    length X + length r <= ub ->
    (ub = length X + length r \/ exists Y', Y = row_sep config :: Y') ->
    FindRowEnd config (length X) ub cp
    = Ok (length X + length r,
          cp ++ colstarts (col_sep config) (length X) r
             ++ [length X + length r + 1]).
Proof.
  intros config r X Y ub cp Hf Hr Hub Hend. unfold FindRowEnd.
  rewrite (@FindIf_forward config r X Y ub cp) by (try assumption; lia).
  cbn [bind]. rewrite <- app_assoc. reflexivity.
Qed.

(** The backward scan inside [FindRowBegin]: over a separator-free stretch
    [r] that ends at the cursor it stops at the start of [r]. *)
Lemma FindIf_backward : forall config r X Y lb cp fuel,
    file config = X ++ r ++ Y ->
    rs_free config r ->
    lb <= length X ->
    (lb = length X \/ exists X', X = X' ++ [row_sep config]) ->
    length X + length r - lb < fuel ->
    FindIf rev_eqb rev_next fuel
           (make_reverse_iterator (length X + length r))
           (make_reverse_iterator lb)
           (fun pos col_pos =>
              c <- rev_deref (file config) pos ;;
              if (c =? row_sep config)%Z then Ok (true, col_pos)
              else if (c =? col_sep config)%Z
                   then Ok (false, base pos :: col_pos)
                   else Ok (false, col_pos))
           cp
    = Ok (make_reverse_iterator (length X),
          colstarts (col_sep config) (length X) r ++ cp).
Proof.
  intros config r. induction r as [|c r IH] using rev_ind;
    intros X Y lb cp fuel Hf Hr Hlb Hbeg Hfuel.
  - destruct fuel as [|k]; [lia|]. cbn [FindIf length colstarts app].
    rewrite Nat.add_0_r. unfold rev_eqb. cbn [base].
    destruct (length X =? lb) eqn:E; [reflexivity|].
    apply Nat.eqb_neq in E.
    destruct Hbeg as [Hbeg | [X' ->]]; [lia|].
    unfold rev_deref. cbn [base]. rewrite length_app. cbn [length].
    rewrite Nat.add_1_r.
    rewrite <- app_assoc in Hf. simpl in Hf.
    rewrite Hf, deref_app_mid. cbn [bind]. rewrite Z.eqb_refl. reflexivity.
  - destruct fuel as [|k]; [lia|].
    rewrite length_app in *. cbn [length] in *.
    replace (length X + (length r + 1)) with (S (length X + length r)) by lia.
    cbn [FindIf]. unfold rev_eqb at 1. cbn [base].
    replace (S (length X + length r) =? lb) with false
      by (symmetry; apply Nat.eqb_neq; lia).
    apply Forall_app in Hr. destruct Hr as [Hr' Hc].
    inversion Hc as [|? ? Hc' _]; subst.
    assert (Hf1 : file config = (X ++ r) ++ c :: Y)
      by (rewrite Hf, <- !app_assoc; reflexivity).
    assert (Hf2 : file config = X ++ r ++ c :: Y)
      by (rewrite Hf, <- !app_assoc; reflexivity).
    unfold rev_deref at 1. cbn [base].
    replace (length X + length r) with (length (X ++ r)) at 1
      by (rewrite length_app; reflexivity).
    rewrite Hf1 at 1. rewrite deref_app_mid. cbn [bind].
    apply Z.eqb_neq in Hc'. rewrite Hc'.
    rewrite colstarts_app. cbn [colstarts].
    assert (Hn : rev_next (make_reverse_iterator (S (length X + length r)))
                 = make_reverse_iterator (length X + length r))
      by (unfold rev_next; cbn [base]; f_equal; lia).
    rewrite Hn.
    destruct (c =? col_sep config)%Z eqn:Ec; cbn [bind].
    + rewrite (IH X (c :: Y) lb) by (try assumption; lia).
      rewrite <- app_assoc. reflexivity.
    + rewrite (IH X (c :: Y) lb) by (try assumption; lia).
      rewrite app_nil_r. reflexivity.
Qed.

Lemma FindRowBegin_spec : forall config r X Y lb cp,
    file config = X ++ r ++ Y ->
    rs_free config r ->
    lb <= length X ->
    (lb = length X \/ exists X', X = X' ++ [row_sep config]) ->
    FindRowBegin config (length X + length r) lb cp
    = Ok (length X,
          length X :: colstarts (col_sep config) (length X) r ++ cp).
Proof.
  intros config r X Y lb cp Hf Hr Hlb Hbeg. unfold FindRowBegin.
  rewrite (@FindIf_backward config r X Y lb cp) by (try assumption; lia).
  reflexivity.
Qed.

(** Resolving the row around a pivot, as each probe of the binary search
    does, leaves the same column starts as a forward scan from the row's
    first byte. *)
Lemma resolve_around : forall config X r1 r2 Y lb ub,
    file config = X ++ (r1 ++ r2) ++ Y ->
    rs_free config (r1 ++ r2) ->
    lb <= length X ->
    (lb = length X \/ exists X', X = X' ++ [row_sep config]) ->
    length X + length (r1 ++ r2) <= ub ->
    (ub = length X + length (r1 ++ r2)
     \/ exists Y', Y = row_sep config :: Y') ->
    exists cp,
      FindRowBegin config (length X + length r1) lb [] = Ok (length X, cp)
      /\ FindRowEnd config (length X + length r1) ub cp
         = Ok (length X + length (r1 ++ r2),
               bounds (col_sep config) (length X) (r1 ++ r2)).
Proof.
  intros config X r1 r2 Y lb ub Hf Hr Hlb Hbeg Hub Hend.
  apply Forall_app in Hr. destruct Hr as [Hr1 Hr2].
  rewrite length_app in *.
  eexists. split.
  - apply (@FindRowBegin_spec config r1 X (r2 ++ Y) lb []);
      try assumption. rewrite Hf, <- app_assoc. reflexivity.
  - assert (Hf' : file config = (X ++ r1) ++ r2 ++ Y)
      by (rewrite Hf, <- !app_assoc; reflexivity).
    pose proof (@FindRowEnd_spec config r2 (X ++ r1) Y ub
                  (length X :: colstarts (col_sep config) (length X) r1 ++ [])
                  Hf' Hr2) as E.
    rewrite length_app in E. rewrite E;
      [| lia | destruct Hend as [Hend|Hend]; [left; lia | right; exact Hend]].
    unfold bounds. rewrite colstarts_app, app_nil_r.
    rewrite <- ?app_assoc. cbn [app]. rewrite ?length_app.
    replace (length X + length r1 + length r2)
      with (length X + (length r1 + length r2)) by lia.
    reflexivity.
Qed.

Lemma resolve_forward : forall config X r Y ub,
    file config = X ++ r ++ Y ->
    rs_free config r ->
    length X + length r <= ub ->
    (ub = length X + length r \/ exists Y', Y = row_sep config :: Y') ->
    FindRowEnd config (length X) ub [length X]
    = Ok (length X + length r, bounds (col_sep config) (length X) r).
Proof.
  intros config X r Y ub Hf Hr Hub Hend.
  rewrite (@FindRowEnd_spec config r X Y ub) by assumption.
  reflexivity.
Qed.

(** ** Column extraction *)

Lemma fields_nonempty : forall cs row, fields cs row <> [].
Proof.
  intros cs row. destruct row as [|c t]; simpl; [discriminate|].
  destruct (c =? cs)%Z; [discriminate|].
  destruct (fields cs t); discriminate.
Qed.

Lemma bounds_cons_sep : forall cs off c t,
    (c =? cs)%Z = true ->
    bounds cs off (c :: t) = off :: bounds cs (S off) t.
Proof.
  intros cs off c t E. unfold bounds. cbn [colstarts length]. rewrite E.
  assert (A : off + S (length t) + 1 = S off + length t + 1) by lia.
  rewrite A. reflexivity.
Qed.

Lemma bounds_cons_other : forall cs off c t,
    (c =? cs)%Z = false ->
    bounds cs off (c :: t) = off :: tl (bounds cs (S off) t).
Proof.
  intros cs off c t E. unfold bounds. cbn [colstarts length tl]. rewrite E.
  assert (A : off + S (length t) + 1 = S off + length t + 1) by lia.
  rewrite A. reflexivity.
Qed.

Lemma length_bounds : forall cs row off,
    length (bounds cs off row) = S (length (fields cs row)).
Proof.
  intros cs row. induction row as [|c t IH]; intros off.
  - reflexivity.
  - destruct (c =? cs)%Z eqn:E.
    + rewrite bounds_cons_sep by exact E. cbn [fields length]. rewrite E.
      cbn [length]. rewrite IH. reflexivity.
    + rewrite bounds_cons_other by exact E. cbn [fields length]. rewrite E.
      specialize (IH (S off)). pose proof (@fields_nonempty cs t) as Hne.
      destruct (fields cs t) as [|x xs]; [congruence|].
      unfold bounds in *. cbn [tl length] in *. lia.
Qed.

(** Consecutive entries of [bounds] delimit the columns of the row: entry
    [j] is the start of column [j] and entry [j+1] is one past the separator
    that ends it. *)
Lemma nth_error_S : forall (A : Type) (x : A) l n,
    nth_error (x :: l) (S n) = nth_error l n.
Proof. reflexivity. Qed.

Lemma bounds_fields : forall cs row off j,
    j < length (fields cs row) ->
    exists s e,
      nth_error (bounds cs off row) j = Some (off + s)
      /\ nth_error (bounds cs off row) (S j) = Some (S (off + e))
      /\ s <= e /\ e <= length row
      /\ firstn (e - s) (skipn s row) = nth j (fields cs row) [].
Proof.
  intros cs row. induction row as [|c t IH]; intros off j Hj.
  - simpl in Hj. assert (j = 0) by lia. subst j.
    exists 0, 0. unfold bounds. simpl. rewrite !Nat.add_0_r.
    repeat split; try lia. f_equal. lia.
  - destruct (c =? cs)%Z eqn:E.
    + rewrite bounds_cons_sep by exact E. cbn [fields] in *. rewrite E in *.
      destruct j as [|j].
      * exists 0, 0. rewrite nth_error_S. unfold bounds at 2.
        cbn [nth_error nth]. rewrite Nat.add_0_r.
        repeat split; try lia; try reflexivity.
      * cbn [length] in Hj.
        destruct (IH (S off) j) as (s & e & H1 & H2 & H3 & H4 & H5); [lia|].
        exists (S s), (S e). rewrite !nth_error_S. cbn [nth length skipn].
        rewrite H1, H2.
        repeat split; try lia; try (f_equal; lia).
        replace (S e - S s) with (e - s) by lia. exact H5.
    + rewrite bounds_cons_other by exact E. cbn [fields] in *. rewrite E in *.
      pose proof (@fields_nonempty cs t) as Hne.
      destruct (fields cs t) as [|x xs] eqn:Ef; [congruence|].
      destruct j as [|j].
      * destruct (IH (S off) 0) as (s & e & H1 & H2 & H3 & H4 & H5);
          [cbn [length]; lia|].
        unfold bounds in H1, H2. rewrite nth_error_S in H2.
        cbn [nth_error] in H1.
        assert (s = 0) by (injection H1; lia). subst s.
        exists 0, (S e). unfold bounds. cbn [tl]. rewrite nth_error_S.
        rewrite H2. cbn [nth_error nth length skipn]. rewrite Nat.add_0_r.
        repeat split; try lia; try (f_equal; lia).
        cbn [skipn nth] in H5. rewrite Nat.sub_0_r in *.
        cbn [firstn]. rewrite H5. reflexivity.
      * cbn [length] in Hj.
        destruct (IH (S off) (S j)) as (s & e & H1 & H2 & H3 & H4 & H5);
          [cbn [length]; lia|].
        unfold bounds in H1, H2. rewrite !nth_error_S in H1, H2.
        exists (S s), (S e). unfold bounds. cbn [tl]. rewrite !nth_error_S.
        cbn [nth length skipn].
        rewrite H1, H2.
        repeat split; try lia; try (f_equal; lia).
        replace (S e - S s) with (e - s) by lia. exact H5.
Qed.

Lemma slice_within : forall (X row Y : list byte) s e,
    s <= e -> e <= length row ->
    slice (X ++ row ++ Y) (length X + s) (length X + e)
    = firstn (e - s) (skipn s row).
Proof.
  intros X row Y s e Hs He. unfold slice.
  rewrite skipn_app. rewrite skipn_all2 by lia. cbn [app].
  replace (length X + s - length X) with s by lia.
  replace (length X + e - (length X + s)) with (e - s) by lia.
  rewrite skipn_app. rewrite firstn_app.
  rewrite length_skipn.
  replace (e - s - (length row - s)) with 0 by lia.
  cbn [firstn]. apply app_nil_r.
Qed.

Lemma string_of_row : forall (X row Y : list byte),
    string_of (X ++ row ++ Y) (length X) (length X + length row) = Ok row.
Proof.
  intros X row Y. unfold string_of.
  replace (length X <=? length X + length row) with true
    by (symmetry; apply Nat.leb_le; lia).
  replace (length X + length row <=? length (X ++ row ++ Y)) with true
    by (symmetry; apply Nat.leb_le; rewrite !length_app; lia).
  cbn [andb]. rewrite slice_app_mid. reflexivity.
Qed.

(** [GetColumn] on the column starts of a fully resolved row. *)
Lemma GetColumn_short : forall config X row Y,
    file config = X ++ row ++ Y ->
    enough_columns config row = false ->
    GetColumn config (bounds (col_sep config) (length X) row)
              (length X) (length X + length row)
    = Throw (NotEnoughColumns row).
Proof.
  intros config X row Y Hf He. unfold GetColumn, enough_columns in *.
  apply Nat.leb_gt in He. rewrite length_bounds.
  replace (S (length (fields (col_sep config) row)) <? col config + 1)
    with true by (symmetry; apply Nat.ltb_lt; lia).
  rewrite Hf, string_of_row. reflexivity.
Qed.

Lemma GetColumn_ok : forall config X row Y,
    file config = X ++ row ++ Y ->
    1 <= col config ->
    enough_columns config row = true ->
    exists a e,
      nth_error (bounds (col_sep config) (length X) row) (col config - 1)
      = Some a
      /\ nth_error (bounds (col_sep config) (length X) row) (col config)
         = Some (e + 1)
      /\ GetColumn config (bounds (col_sep config) (length X) row)
                   (length X) (length X + length row)
         = Ok (StringBlock.mk (file config) a e)
      /\ StringBlock.valid (StringBlock.mk (file config) a e)
      /\ StringBlock.bytes (StringBlock.mk (file config) a e)
         = key_column config row.
Proof.
  intros config X row Y Hf Hc He. unfold GetColumn, enough_columns in *.
  apply Nat.leb_le in He. rewrite length_bounds.
  replace (S (length (fields (col_sep config) row)) <? col config + 1)
    with false by (symmetry; apply Nat.ltb_ge; lia).
  destruct (col config) as [|c] eqn:Ec; [lia|].
  destruct (@bounds_fields (col_sep config) row (length X) c)
    as (s & e & H1 & H2 & H3 & H4 & H5); [lia|].
  exists (length X + s), (length X + e).
  replace (S c - 1) with c by lia.
  unfold at_index. rewrite H1, H2. cbn [bind].
  unfold StringBlock.make.
  replace (length X + e <? length X + s) with false
    by (symmetry; apply Nat.ltb_ge; lia).
  repeat split; try reflexivity.
  - f_equal. lia.
  - cbn. lia.
  - cbn. rewrite Hf, !length_app. lia.
  - unfold StringBlock.bytes, key_column. cbn [StringBlock.mem
      StringBlock.first StringBlock.last].
    rewrite Hf, slice_within by assumption. rewrite Ec.
    replace (S c - 1) with c by lia. exact H5.
Qed.

(** ** Rows of a buffer *)

Lemma rows_nil_inv : forall rs l, rows rs l = [] -> l = [].
Proof.
  intros rs [|c t] H; [reflexivity|]. simpl in H.
  destruct (c =? rs)%Z; [discriminate|].
  destruct (rows rs t); discriminate.
Qed.

Lemma rows_row_sep : forall config r Y,
    rs_free config r ->
    rows (row_sep config) (r ++ row_sep config :: Y)
    = r :: rows (row_sep config) Y.
Proof.
  intros config r Y Hr. induction Hr as [|c r Hc Hr IH].
  - simpl. rewrite Z.eqb_refl. reflexivity.
  - simpl. apply Z.eqb_neq in Hc. rewrite Hc, IH. reflexivity.
Qed.

Lemma rows_row_end : forall config r,
    rs_free config r -> r <> [] ->
    rows (row_sep config) r = [r].
Proof.
  intros config r Hr. induction Hr as [|c r Hc Hr IH]; intros Hne.
  - congruence.
  - simpl. apply Z.eqb_neq in Hc. rewrite Hc.
    destruct r as [|c' r'].
    + reflexivity.
    + rewrite IH by discriminate. reflexivity.
Qed.

Lemma terminated_tail : forall config c X,
    terminated config (c :: X) -> terminated config X.
Proof.
  intros config c X [H | [X' H]]; [discriminate|].
  destruct X' as [|c' X'']; simpl in H.
  - injection H as _ H. left. exact H.
  - injection H as _ H. right. exists X''. exact H.
Qed.

Lemma terminated_app : forall config X Y,
    terminated config X -> terminated config Y -> terminated config (X ++ Y).
Proof.
  intros config X Y HX [-> | [Y' ->]].
  - rewrite app_nil_r. exact HX.
  - right. exists (X ++ Y'). rewrite app_assoc. reflexivity.
Qed.

Lemma terminated_row : forall config r,
    terminated config (r ++ [row_sep config]).
Proof. intros. right. exists r. reflexivity. Qed.

Lemma rows_app : forall config X Y,
    terminated config X ->
    rows (row_sep config) (X ++ Y)
    = rows (row_sep config) X ++ rows (row_sep config) Y.
Proof.
  intros config X Y. induction X as [|c X IH]; intros HX.
  - reflexivity.
  - pose proof (terminated_tail HX) as HX'. specialize (IH HX').
    simpl. destruct (c =? row_sep config)%Z eqn:Ec.
    + rewrite IH. reflexivity.
    + rewrite IH.
      destruct (rows (row_sep config) X) as [|x xs] eqn:Er.
      * apply rows_nil_inv in Er. subst X.
        destruct HX as [HX | [X' HX]]; [discriminate|].
        destruct X' as [|? [|? ?]]; simpl in HX; try discriminate.
        injection HX as HX. apply Z.eqb_neq in Ec. congruence.
      * reflexivity.
Qed.

(** Every stretch splits at its first row separator. *)
Lemma break_first : forall config (S : list byte),
    exists r Y, S = r ++ Y /\ rs_free config r
                /\ (Y = [] \/ exists Y', Y = row_sep config :: Y').
Proof.
  intros config S. induction S as [|c S IH].
  - exists [], []. repeat split; [constructor | left; reflexivity].
  - destruct (Z.eq_dec c (row_sep config)) as [-> | Hc].
    + exists [], (row_sep config :: S).
      repeat split; [constructor | right; eexists; reflexivity].
    + destruct IH as (r & Y & -> & Hr & HY).
      exists (c :: r), Y. repeat split; [constructor; assumption | exact HY].
Qed.

(** Every stretch splits after its last row separator. *)
Lemma split_last : forall config (P : list byte),
    exists M r, P = M ++ r /\ terminated config M /\ rs_free config r.
Proof.
  intros config P. induction P as [|c P IH] using rev_ind.
  - exists [], []. repeat split; [left; reflexivity | constructor].
  - destruct (Z.eq_dec c (row_sep config)) as [-> | Hc].
    + exists (P ++ [row_sep config]), [].
      rewrite app_nil_r. repeat split; [apply terminated_row | constructor].
    + destruct IH as (M & r & -> & HM & Hr).
      exists M, (r ++ [c]). rewrite app_assoc. repeat split; [exact HM|].
      apply Forall_app. split; [exact Hr | constructor; [exact Hc | constructor]].
Qed.

(** ** The closures [Compare] and [IsPrefixOf] of [Run] *)

Lemma Compare_config_spec : forall config a b,
    StringBlock.valid a -> StringBlock.valid b ->
    Compare config a b
    = Ok (compare_bytes (transform (fold config))
                        (StringBlock.bytes a) (StringBlock.bytes b)).
Proof.
  intros config a b Va Vb. unfold Compare, transform.
  destruct (fold config); apply Compare_spec; assumption.
Qed.

Lemma IsPrefixOf_config_spec : forall config a b,
    StringBlock.valid a -> StringBlock.valid b ->
    IsPrefixOf config a b
    = Ok (prefixb (transform (fold config))
                  (StringBlock.bytes a) (StringBlock.bytes b)).
Proof.
  intros config a b Va Vb. unfold IsPrefixOf, transform.
  destruct (fold config); apply IsPrefixOf_spec; assumption.
Qed.

Lemma of_string_valid : forall s, StringBlock.valid (StringBlock.of_string s).
Proof. intros s. unfold StringBlock.valid. simpl. lia. Qed.

Lemma of_string_bytes : forall s,
    StringBlock.bytes (StringBlock.of_string s) = s.
Proof.
  intros s. unfold StringBlock.bytes, StringBlock.of_string, slice. simpl.
  rewrite Nat.sub_0_r. apply firstn_all.
Qed.

(** ** One probe of the binary search *)

Lemma terminated_free_end : forall config X r,
    terminated config (X ++ r) -> rs_free config r -> r = [].
Proof.
  intros config X r HT Hr.
  destruct r as [|c r'] using rev_ind; [reflexivity|]. exfalso.
  apply Forall_app in Hr. destruct Hr as [_ Hc].
  inversion Hc as [|? ? Hne _]; subst.
  destruct HT as [HT | [X' HT]].
  - destruct X; destruct r'; discriminate.
  - rewrite app_assoc in HT. apply app_inj_tail in HT. destruct HT as [_ ->].
    congruence.
Qed.

(** Around every offset of a stretch lies a row: what precedes it is
    terminated, and it is followed by a row separator or by the end of the
    stretch. *)
Lemma row_around : forall config (M : list byte) k,
    k < length M ->
    exists M1 r1 r2 M2,
      M = M1 ++ (r1 ++ r2) ++ M2
      /\ length M1 + length r1 = k
      /\ terminated config M1
      /\ rs_free config (r1 ++ r2)
      /\ ((M2 = [] /\ r2 <> []) \/ exists M2', M2 = row_sep config :: M2').
Proof.
  intros config M k Hk.
  destruct (split_last config (firstn k M)) as (M1 & r1 & HP & HM1 & Hr1).
  destruct (break_first config (skipn k M)) as (r2 & M2 & HQ & Hr2 & HM2).
  exists M1, r1, r2, M2. repeat split.
  - rewrite <- (firstn_skipn k M) at 1. rewrite HP, HQ, <- !app_assoc.
    reflexivity.
  - rewrite <- length_app, <- HP, length_firstn. lia.
  - exact HM1.
  - apply Forall_app. split; assumption.
  - destruct HM2 as [-> | HM2]; [left | right; exact HM2].
    split; [reflexivity|]. intros ->. rewrite app_nil_r in HQ.
    apply (f_equal (@length Z)) in HQ. rewrite length_skipn in HQ.
    simpl in HQ. lia.
Qed.

Lemma search_loop_done : forall config k key lb ub,
    ub <= lb -> search_loop config (S k) key lb ub = Ok (lb, ub).
Proof.
  intros config k key lb ub H. cbn [search_loop].
  replace (lb <? ub) with false by (symmetry; apply Nat.ltb_ge; lia).
  reflexivity.
Qed.

Lemma probe_step : forall config key A M B,
    file config = A ++ M ++ B ->
    terminated config A ->
    terminated config (A ++ M) \/ B = [] ->
    M <> [] ->
    1 <= col config ->
    exists M1 row M2,
      M = M1 ++ row ++ M2
      /\ terminated config M1
      /\ rs_free config row
      /\ ((M2 = [] /\ B = [] /\ row <> [])
          \/ exists M2', M2 = row_sep config :: M2')
      /\ forall k,
          search_loop config (S k) (StringBlock.of_string key)
                      (length A) (length A + length M)
          = if enough_columns config row then
              if (compare_bytes (transform (fold config)) key
                                (key_column config row) >=? 0)%Z
              then search_loop config k (StringBlock.of_string key)
                               (length A) (length A + length M1)
              else search_loop config k (StringBlock.of_string key)
                               (length A + length M1 + length row + 1)
                               (length A + length M)
            else Throw (NotEnoughColumns row).
Proof.
  intros config key A M B Hf HA HAM HM Hcol.
  assert (HlenM : 0 < length M) by (destruct M; simpl; [congruence | lia]).
  assert (Hk : (length A + length M - length A) / 2 < length M).
  { replace (length A + length M - length A) with (length M) by lia.
    apply Nat.div_lt; lia. }
  destruct (@row_around config M _ Hk)
    as (M1 & r1 & r2 & M2 & HMeq & Hpos & HM1 & Hrow & HM2).
  exists M1, (r1 ++ r2), M2.
  assert (HM2' : (M2 = [] /\ B = [] /\ r1 ++ r2 <> [])
                 \/ exists M2', M2 = row_sep config :: M2').
  { destruct HM2 as [[-> Hr2] | HM2]; [left | right; exact HM2].
    repeat split.
    - destruct HAM as [HAM | HB]; [|exact HB]. exfalso.
      rewrite HMeq, app_nil_r in HAM.
      rewrite !app_assoc in HAM. apply terminated_free_end in HAM.
      + congruence.
      + apply Forall_app in Hrow. tauto.
    - destruct r1; destruct r2; simpl; congruence. }
  repeat split; try assumption.
  intros k.
  assert (Hfile : file config = (A ++ M1) ++ (r1 ++ r2) ++ (M2 ++ B)).
  { rewrite Hf, HMeq, <- !app_assoc. reflexivity. }
  destruct (@resolve_around config (A ++ M1) r1 r2 (M2 ++ B)
              (length A) (length A + length M) Hfile Hrow)
    as (cp & E1 & E2).
  { rewrite length_app. lia. }
  { destruct HM1 as [-> | [M1' ->]].
    - left. rewrite app_nil_r. reflexivity.
    - right. exists (A ++ M1'). rewrite app_assoc. reflexivity. }
  { rewrite HMeq, !length_app. lia. }
  { destruct HM2' as [(-> & -> & _) | [M2' ->]].
    - left. rewrite HMeq, !length_app. simpl. lia.
    - right. eexists. reflexivity. }
  cbn [search_loop].
  replace (length A <? length A + length M) with true
    by (symmetry; apply Nat.ltb_lt; lia).
  rewrite length_app in E1, E2.
  replace (length A + (length A + length M - length A) / 2)
    with (length A + length M1 + length r1) by lia.
  rewrite E1. cbn [bind]. rewrite E2. cbn [bind].
  pose proof (@GetColumn_short config (A ++ M1) (r1 ++ r2) (M2 ++ B) Hfile)
    as Hshort.
  pose proof (@GetColumn_ok config (A ++ M1) (r1 ++ r2) (M2 ++ B) Hfile Hcol)
    as Hok.
  rewrite length_app in Hshort, Hok.
  destruct (enough_columns config (r1 ++ r2)).
  - destruct (Hok eq_refl) as (a & e & _ & _ & EG & Vb & Hb).
    rewrite EG. cbn [bind]. unfold StringBlock.make.
    replace (length A + length M1 + length (r1 ++ r2)
             <? length A + length M1) with false
      by (symmetry; apply Nat.ltb_ge; lia).
    cbn [bind].
    rewrite Compare_config_spec by (try apply of_string_valid; assumption).
    cbn [bind]. rewrite of_string_bytes, Hb. reflexivity.
  - rewrite (Hshort eq_refl). reflexivity.
Qed.

(** ** The order induced by [Compare] *)

Lemma compare_bytes_antisym : forall f a b,
    compare_bytes f b a = (- compare_bytes f a b)%Z.
Proof.
  intros f a. induction a as [|x a IH]; intros b.
  - rewrite compare_bytes_nil_l, compare_bytes_nil_r. reflexivity.
  - destruct b as [|y b].
    + rewrite compare_bytes_nil_l, compare_bytes_nil_r. lia.
    + cbn [compare_bytes]. rewrite (Z.eqb_sym (f y) (f x)).
      destruct (f x =? f y)%Z; [apply IH | lia].
Qed.

Lemma compare_bytes_trans : forall f a b c,
    (0 <= compare_bytes f a b)%Z -> (0 <= compare_bytes f b c)%Z ->
    (0 <= compare_bytes f a c)%Z.
Proof.
  intros f a. induction a as [|x a IH]; intros b c Hab Hbc.
  - rewrite compare_bytes_nil_l. lia.
  - destruct b as [|y b].
    + rewrite compare_bytes_nil_r in Hab. cbn [length] in Hab. lia.
    + destruct c as [|z c].
      * rewrite compare_bytes_nil_r in Hbc. cbn [length] in Hbc. lia.
      * cbn [compare_bytes] in *.
        destruct (Z.eqb_spec (f x) (f y)) as [Exy|Nxy];
          destruct (Z.eqb_spec (f y) (f z)) as [Eyz|Nyz];
          destruct (Z.eqb_spec (f x) (f z)) as [Exz|Nxz];
          try lia.
        eapply IH; eassumption.
Qed.

Lemma compare_bytes_lt_le : forall f a b c,
    (0 < compare_bytes f a b)%Z -> (0 <= compare_bytes f b c)%Z ->
    (0 < compare_bytes f a c)%Z.
Proof.
  intros f a b c Hab Hbc.
  destruct (Z.lt_ge_cases 0 (compare_bytes f a c)) as [H|H]; [exact H|].
  exfalso.
  assert (Hca : (0 <= compare_bytes f c a)%Z)
    by (rewrite compare_bytes_antisym; lia).
  pose proof (compare_bytes_trans f b c a Hbc Hca) as Hba.
  rewrite compare_bytes_antisym in Hba. lia.
Qed.

Lemma prefixb_monotone : forall f k a b,
    (0 <= compare_bytes f k a)%Z -> (0 <= compare_bytes f a b)%Z ->
    prefixb f k a = false -> prefixb f k b = false.
Proof.
  intros f k. induction k as [|x k IH]; intros a b Hka Hab Hp.
  - discriminate.
  - destruct a as [|y a].
    + rewrite compare_bytes_nil_r in Hka. cbn [length] in Hka. lia.
    + destruct b as [|z b]; [reflexivity|].
      cbn [compare_bytes prefixb] in *.
      destruct (Z.eqb_spec (f x) (f y)) as [Exy|Nxy];
        destruct (Z.eqb_spec (f y) (f z)) as [Eyz|Nyz];
        destruct (Z.eqb_spec (f x) (f z)) as [Exz|Nxz];
        try lia; try reflexivity.
      cbn [andb] in *. eapply IH; eassumption.
Qed.

Lemma key_leb_spec : forall config a b,
    key_leb config a b
    = (0 <=? compare_bytes (transform (fold config)) a b)%Z.
Proof.
  intros config a b. unfold key_leb.
  rewrite Compare_config_spec by apply of_string_valid.
  rewrite !of_string_bytes. reflexivity.
Qed.

Lemma key_leb_trans : forall config a b c,
    key_leb config a b = true -> key_leb config b c = true ->
    key_leb config a c = true.
Proof.
  intros config a b c. rewrite !key_leb_spec, !Z.leb_le.
  apply compare_bytes_trans.
Qed.

(** ** Sorted lists *)

Section Sortedb.

Variable T : Type.
Variable le : T -> T -> bool.
Hypothesis le_transitive :
  forall a b c, le a b = true -> le b c = true -> le a c = true.

Lemma sortedb_cons : forall x l,
    sortedb le (x :: l) = true ->
    Forall (fun y => le x y = true) l /\ sortedb le l = true.
Proof.
  intros x l. revert x. induction l as [|y l IH]; intros x H.
  - split; [constructor | reflexivity].
  - cbn [sortedb] in H. apply andb_true_iff in H. destruct H as [Hxy Hs].
    split; [|exact Hs].
    destruct (IH y Hs) as [Hy _].
    constructor; [exact Hxy|].
    eapply Forall_impl; [|exact Hy].
    intros z Hz. cbv beta in *. eapply le_transitive; eassumption.
Qed.

Lemma sortedb_app : forall l1 l2,
    sortedb le (l1 ++ l2) = true ->
    sortedb le l2 = true
    /\ Forall (fun x => Forall (fun y => le x y = true) l2) l1.
Proof.
  induction l1 as [|x l1 IH]; intros l2 H.
  - split; [exact H | constructor].
  - simpl app in H. destruct (@sortedb_cons _ _ H) as [Hx Hs].
    destruct (IH _ Hs) as [H2 H1].
    split; [exact H2|]. constructor; [|exact H1].
    apply Forall_app in Hx. tauto.
Qed.

End Sortedb.

(** ** The binary search loop *)

Lemma terminatedb_spec : forall config buf,
    terminatedb config buf = true <-> terminated config buf.
Proof.
  intros config buf. unfold terminatedb, terminated.
  destruct buf as [|c buf'] using rev_ind.
  - simpl. split; auto.
  - rewrite rev_app_distr. simpl. rewrite Z.eqb_eq. split.
    + intros ->. right. exists buf'. reflexivity.
    + intros [H | [X' H]].
      * destruct buf'; discriminate.
      * apply app_inj_tail in H. tauto.
Qed.

(** The rows of a stretch that continues, after a terminated part, with a
    row and its separator or with a final row that has none. *)
Lemma rows_probe : forall config L row M2 B,
    terminated config L ->
    rs_free config row ->
    ((M2 = [] /\ B = [] /\ row <> [])
     \/ exists M2', M2 = row_sep config :: M2') ->
    exists rest,
      rows (row_sep config) (row ++ M2 ++ B) = row :: rest
      /\ rows (row_sep config) (L ++ row ++ M2 ++ B)
         = rows (row_sep config) L ++ row :: rest.
Proof.
  intros config L row M2 B HL Hrow HM2.
  assert (H : exists rest,
             rows (row_sep config) (row ++ M2 ++ B) = row :: rest).
  { destruct HM2 as [(-> & -> & Hne) | [M2' ->]].
    - exists []. simpl. rewrite app_nil_r. apply rows_row_end; assumption.
    - eexists. simpl. apply rows_row_sep. exact Hrow. }
  destruct H as [rest H]. exists rest. split; [exact H|].
  rewrite rows_app by exact HL. rewrite H. reflexivity.
Qed.

Section Search.

Variable config : Config.
Variable key : list byte.
Hypothesis Hcol : 1 <= col config.
Hypothesis Henough : all_enough_columns config = true.
Hypothesis Hsorted : sorted_by_key config = true.

Lemma search_loop_sorted : forall fuel A M B,
    file config = A ++ M ++ B ->
    terminated config A ->
    terminated config (A ++ M) \/ B = [] ->
    length M < fuel ->
    Forall (key_after config key) (rows (row_sep config) A) ->
    Forall (key_not_after config key) (rows (row_sep config) B) ->
    exists lb ub,
      search_loop config fuel (StringBlock.of_string key)
                  (length A) (length A + length M) = Ok (lb, ub)
      /\ search_post config key lb ub.
Proof.
  induction fuel as [|k IH]; intros A M B Hf HA HAM Hfuel HbA HbB; [lia|].
  destruct M as [|m M'] eqn:EM.
  - (* the window is empty *)
    exists (length A), (length A). split.
    + rewrite search_loop_done by (simpl; lia).
      simpl. rewrite Nat.add_0_r. reflexivity.
    + left. exists A, B. repeat split; assumption.
  - rewrite <- EM in *. assert (HM : M <> []) by (rewrite EM; discriminate).
    clear EM m M'.
    destruct (@probe_step config key A M B Hf HA HAM HM Hcol)
      as (M1 & row & M2 & HMeq & HM1 & Hrow & HM2 & Hstep).
    rewrite Hstep. clear Hstep.
    (* the rows of the file around the probed row *)
    destruct (@rows_probe config M1 row M2 B HM1 Hrow HM2)
      as (rest & Hrest & Hrows).
    assert (Hall : rows (row_sep config) (file config)
                   = (rows (row_sep config) A ++ rows (row_sep config) M1)
                       ++ row :: rest).
    { rewrite Hf, HMeq, rows_app by exact HA.
      rewrite <- !app_assoc. rewrite Hrows. reflexivity. }
    assert (Hen : enough_columns config row = true).
    { unfold all_enough_columns in Henough. rewrite Hall in Henough.
      rewrite forallb_app in Henough. apply andb_true_iff in Henough.
      destruct Henough as [_ H]. simpl in H. apply andb_true_iff in H. tauto. }
    rewrite Hen.
    unfold sorted_by_key in Hsorted. rewrite Hall, map_app in Hsorted.
    destruct (@sortedb_app _ _ (@key_leb_trans config) _ _ Hsorted)
      as [Hs2 Hs1].
    cbn [map] in Hs1, Hs2.
    destruct (@sortedb_cons _ _ (@key_leb_trans config) _ _ Hs2) as [Hafter _].
    destruct (compare_bytes (transform (fold config)) key
                            (key_column config row) >=? 0)%Z eqn:Ec.
    + (* the key is not after the probed row: ub = first *)
      assert (Hkr : key_leb config key (key_column config row) = true)
        by (rewrite key_leb_spec; apply Z.leb_le; apply Z.geb_le in Ec; lia).
      apply (IH A M1 (row ++ M2 ++ B)).
      * rewrite Hf, HMeq, <- !app_assoc. reflexivity.
      * exact HA.
      * left. apply terminated_app; assumption.
      * rewrite HMeq, !length_app in Hfuel.
        destruct HM2 as [(-> & _ & Hne) | [M2' ->]].
        -- destruct row; [congruence|]. simpl in Hfuel. lia.
        -- simpl in Hfuel. lia.
      * exact HbA.
      * rewrite Hrest. constructor; [exact Hkr|].
        rewrite Forall_map in Hafter.
        eapply Forall_impl; [|exact Hafter].
        intros r Hr. cbv beta in Hr. unfold key_not_after.
        eapply key_leb_trans; eassumption.
    + (* the key is after the probed row: lb = last + 1 *)
      assert (Hkr : key_leb config key (key_column config row) = false).
      { rewrite key_leb_spec. apply Z.leb_gt.
        rewrite Z.geb_leb in Ec. apply Z.leb_gt in Ec. exact Ec. }
      assert (Hbefore : Forall (key_after config key)
                               ((rows (row_sep config) A
                                 ++ rows (row_sep config) M1) ++ [row])).
      { apply Forall_app. split; [|constructor; [exact Hkr | constructor]].
        apply Forall_app. split; [exact HbA|].
        rewrite map_app in Hs1. apply Forall_app in Hs1.
        destruct Hs1 as [_ Hs1]. rewrite Forall_map in Hs1.
        eapply Forall_impl; [|exact Hs1].
        intros r Hr. cbv beta in Hr. inversion Hr as [|? ? Hr1 _]; subst.
        unfold key_after.
        destruct (key_leb config key (key_column config r)) eqn:E;
          [|reflexivity].
        rewrite (@key_leb_trans config _ _ _ E Hr1) in Hkr. discriminate. }
      destruct HM2 as [(-> & -> & Hne) | [M2' ->]].
      * (* the probed row is the final row and has no separator *)
        rewrite app_nil_r in *.
        exists (length A + length M1 + length row + 1), (length A + length M).
        split.
        -- destruct k as [|k']; [destruct M; simpl in *; [congruence|lia]|].
           apply search_loop_done. rewrite HMeq, length_app. lia.
        -- right. repeat split.
           ++ rewrite Hf, HMeq, !length_app. simpl. lia.
           ++ rewrite Hf, !length_app. simpl. lia.
           ++ apply not_true_is_false. intro HT.
              apply terminatedb_spec in HT. rewrite Hf, HMeq in HT.
              rewrite ?app_nil_r, app_assoc in HT.
              apply terminated_free_end in HT; [congruence | exact Hrow].
           ++ rewrite Hall.
              simpl in Hrest. rewrite ?app_nil_r in Hrest.
              rewrite (@rows_row_end config row Hrow Hne) in Hrest.
              injection Hrest as <-. exact Hbefore.
      * (* the probed row is followed by its separator *)
        specialize (IH (A ++ M1 ++ row ++ [row_sep config]) M2' B).
        rewrite !length_app in IH. cbn [length] in IH.
        replace (length A + (length M1 + (length row + 1)))
          with (length A + length M1 + length row + 1) in IH by lia.
        replace (length A + length M1 + length row + 1 + length M2')
          with (length A + length M) in IH
          by (rewrite HMeq, !length_app; simpl; lia).
        apply IH.
        -- rewrite Hf, HMeq, <- !app_assoc. reflexivity.
        -- apply terminated_app; [exact HA|].
           apply terminated_app; [exact HM1 | apply terminated_row].
        -- destruct HAM as [HAM | HB]; [left | right; exact HB].
           rewrite HMeq in HAM. rewrite <- !app_assoc. simpl. exact HAM.
        -- rewrite HMeq, !length_app in Hfuel. simpl in Hfuel. lia.
        -- rewrite rows_app by exact HA.
           rewrite rows_app by exact HM1.
           rewrite (@rows_row_sep config row [] Hrow). simpl.
           rewrite app_assoc. exact Hbefore.
        -- exact HbB.
Qed.

End Search.

(** ** The forward scan loop and the check loop *)

Lemma scan_loop_done : forall config k key lb ub os,
    ub <= lb -> scan_loop config (S k) key lb ub os = (os, Ok tt).
Proof.
  intros config k key lb ub os H. cbn [scan_loop].
  replace (lb <? ub) with false by (symmetry; apply Nat.ltb_ge; lia).
  reflexivity.
Qed.

Lemma check_loop_done : forall config k prev lb ub,
    ub <= lb -> check_loop config (S k) prev lb ub = Ok tt.
Proof.
  intros config k prev lb ub H. cbn [check_loop].
  replace (lb <? ub) with false by (symmetry; apply Nat.ltb_ge; lia).
  reflexivity.
Qed.

(** The row that starts at the cursor of a forward loop. *)
Lemma row_at_cursor : forall config (X S : list byte),
    file config = X ++ S -> S <> [] ->
    exists r Y,
      S = r ++ Y /\ rs_free config r
      /\ FindRowEnd config (length X) (length (file config)) [length X]
         = Ok (length X + length r, bounds (col_sep config) (length X) r)
      /\ ((Y = [] /\ r <> [] /\ rows (row_sep config) S = [r])
          \/ exists Y', Y = row_sep config :: Y'
                        /\ rows (row_sep config) S
                           = r :: rows (row_sep config) Y').
Proof.
  intros config X S Hf HS.
  destruct (break_first config S) as (r & Y & HSeq & Hr & HY).
  exists r, Y. repeat split; try assumption.
  - apply (@resolve_forward config X r Y); try assumption.
    + rewrite Hf, HSeq. reflexivity.
    + rewrite Hf, HSeq, !length_app. lia.
    + destruct HY as [-> | HY]; [left | right; exact HY].
      rewrite Hf, HSeq, !length_app. simpl. lia.
  - destruct HY as [-> | [Y' ->]]; [left | right].
    + rewrite app_nil_r in HSeq. subst r.
      repeat split; try assumption. apply rows_row_end; assumption.
    + exists Y'. split; [reflexivity|]. rewrite HSeq.
      apply rows_row_sep. exact Hr.
Qed.

Lemma scan_loop_spec : forall config key fuel X S os,
    file config = X ++ S ->
    length S < fuel ->
    1 <= col config ->
    scan_loop config fuel (StringBlock.of_string key)
              (length X) (length (file config)) os
    = scan_rows config key (rows (row_sep config) S) os.
Proof.
  intros config key fuel. induction fuel as [|k IH];
    intros X S os Hf Hfuel Hcol; [lia|].
  destruct S as [|c S'] eqn:ES.
  - rewrite scan_loop_done by (rewrite Hf, length_app; simpl; lia).
    reflexivity.
  - rewrite <- ES in *. assert (HS : S <> []) by (rewrite ES; discriminate).
    clear ES c S'.
    destruct (@row_at_cursor config X S Hf HS)
      as (r & Y & HSeq & Hr & Hend & Hrows).
    assert (Hfile : file config = X ++ r ++ Y) by (rewrite Hf, HSeq; reflexivity).
    cbn [scan_loop].
    replace (length X <? length (file config)) with true
      by (symmetry; apply Nat.ltb_lt; rewrite Hf, length_app;
          destruct S; simpl; [congruence | lia]).
    rewrite Hend. cbn [bind].
    assert (Hrw : exists rest, rows (row_sep config) S = r :: rest).
    { destruct Hrows as [(_ & _ & H) | (Y' & _ & H)]; eexists; exact H. }
    destruct Hrw as [rest Hrw]. rewrite Hrw. cbn [scan_rows].
    destruct (enough_columns config r) eqn:Een.
    + destruct (@GetColumn_ok config X r Y Hfile Hcol Een)
        as (a & e & _ & _ & EG & Vb & Hb).
      rewrite EG. cbn [bind].
      assert (Em : (if exact_match config
                    then IsExactMatch config (StringBlock.of_string key)
                                      (StringBlock.mk (file config) a e)
                    else IsPrefixMatch config (StringBlock.of_string key)
                                       (StringBlock.mk (file config) a e))
                   = Ok (is_matchb config key (key_column config r))).
      { unfold is_matchb, IsExactMatch, IsPrefixMatch, exact_matchb,
          prefix_matchb.
        destruct (exact_match config).
        - rewrite Compare_config_spec
            by (try apply of_string_valid; assumption).
          cbn [bind]. rewrite of_string_bytes, Hb. reflexivity.
        - rewrite IsPrefixOf_config_spec
            by (try apply of_string_valid; assumption).
          rewrite of_string_bytes, Hb. reflexivity. }
      rewrite Em. cbn [bind].
      destruct (is_matchb config key (key_column config r)); [|reflexivity].
      unfold StringBlock.make.
      replace (length X + length r <? length X) with false
        by (symmetry; apply Nat.ltb_ge; lia).
      unfold StringBlock.write.
      cbn [StringBlock.mem StringBlock.first StringBlock.last].
      rewrite Hfile at 1. rewrite string_of_row.
      rewrite <- app_assoc.
      destruct Hrows as [(-> & Hne & H) | (Y' & -> & H)].
      * rewrite Hrw in H. injection H as H. subst rest.
        destruct k as [|k']; [destruct S; simpl in *; [congruence | lia]|].
        rewrite scan_loop_done; [reflexivity|].
        rewrite Hfile, !length_app. simpl. lia.
      * rewrite Hrw in H. injection H as ->.
        specialize (IH (X ++ r ++ [row_sep config]) Y'
                       (os ++ r ++ [row_sep config])).
        rewrite !length_app in IH. cbn [length] in IH.
        replace (length X + (length r + 1))
          with (length X + length r + 1) in IH by lia.
        apply IH.
        -- rewrite Hfile, <- !app_assoc. reflexivity.
        -- rewrite HSeq, length_app in Hfuel. simpl in Hfuel. lia.
        -- exact Hcol.
    + rewrite (@GetColumn_short config X r Y Hfile Een). reflexivity.
Qed.

Lemma check_loop_spec : forall config fuel X S prev,
    file config = X ++ S ->
    length S < fuel ->
    1 <= col config ->
    StringBlock.valid prev ->
    check_loop config fuel prev (length X) (length (file config))
    = check_rows config (StringBlock.bytes prev) (rows (row_sep config) S).
Proof.
  intros config fuel. induction fuel as [|k IH];
    intros X S prev Hf Hfuel Hcol Vp; [lia|].
  destruct S as [|c S'] eqn:ES.
  - rewrite check_loop_done by (rewrite Hf, length_app; simpl; lia).
    reflexivity.
  - rewrite <- ES in *. assert (HS : S <> []) by (rewrite ES; discriminate).
    clear ES c S'.
    destruct (@row_at_cursor config X S Hf HS)
      as (r & Y & HSeq & Hr & Hend & Hrows).
    assert (Hfile : file config = X ++ r ++ Y) by (rewrite Hf, HSeq; reflexivity).
    cbn [check_loop].
    replace (length X <? length (file config)) with true
      by (symmetry; apply Nat.ltb_lt; rewrite Hf, length_app;
          destruct S; simpl; [congruence | lia]).
    rewrite Hend. cbn [bind].
    assert (Hrw : exists rest, rows (row_sep config) S = r :: rest).
    { destruct Hrows as [(_ & _ & H) | (Y' & _ & H)]; eexists; exact H. }
    destruct Hrw as [rest Hrw]. rewrite Hrw. cbn [check_rows].
    destruct (enough_columns config r) eqn:Een.
    + destruct (@GetColumn_ok config X r Y Hfile Hcol Een)
        as (a & e & _ & _ & EG & Vb & Hb).
      rewrite EG. cbn [bind].
      rewrite Compare_config_spec by assumption. cbn [bind].
      rewrite key_leb_spec, Hb.
      destruct (Z.ltb_spec (compare_bytes (transform (fold config))
                                          (StringBlock.bytes prev)
                                          (key_column config r)) 0) as [Hlt|Hge].
      * replace (0 <=? _)%Z with false by (symmetry; apply Z.leb_gt; exact Hlt).
        rewrite Hfile at 1. rewrite string_of_row. reflexivity.
      * replace (0 <=? _)%Z with true by (symmetry; apply Z.leb_le; exact Hge).
        rewrite <- Hb.
        destruct Hrows as [(-> & Hne & H) | (Y' & -> & H)].
        -- rewrite Hrw in H. injection H as H. subst rest.
           destruct k as [|k']; [destruct S; simpl in *; [congruence | lia]|].
           rewrite check_loop_done; [reflexivity|].
           rewrite Hfile, !length_app. simpl. lia.
        -- rewrite Hrw in H. injection H as ->.
           specialize (IH (X ++ r ++ [row_sep config]) Y'
                          (StringBlock.mk (file config) a e)).
           rewrite !length_app in IH. cbn [length] in IH.
           replace (length X + (length r + 1))
             with (length X + length r + 1) in IH by lia.
           apply IH.
           ++ rewrite Hfile, <- !app_assoc. reflexivity.
           ++ rewrite HSeq, length_app in Hfuel. simpl in Hfuel. lia.
           ++ exact Hcol.
           ++ exact Vb.
    + rewrite (@GetColumn_short config X r Y Hfile Een). reflexivity.
Qed.

(** ** Matching rows of a sorted buffer *)

Lemma compare_bytes_zero : forall f a b,
    compare_bytes f a b = 0%Z <-> map f a = map f b.
Proof.
  intros f a. induction a as [|x a IH]; intros b.
  - rewrite compare_bytes_nil_l. destruct b; simpl; split;
      intros H; try reflexivity; try discriminate; lia.
  - destruct b as [|y b].
    + rewrite compare_bytes_nil_r. simpl. split; intros H; [lia|discriminate].
    + cbn [compare_bytes map].
      destruct (Z.eqb_spec (f x) (f y)) as [E|N].
      * rewrite IH, E. split; intros H; [f_equal; exact H | injection H; auto].
      * split; intros H; [lia | injection H; intros; congruence].
Qed.

Lemma prefixb_spec : forall f k c,
    prefixb f k c = true <-> exists t, map f c = map f k ++ t.
Proof.
  intros f k. induction k as [|x k IH]; intros c.
  - simpl. split; [intros _; eexists; reflexivity | reflexivity].
  - destruct c as [|y c]; cbn [prefixb map app].
    + split; [discriminate | intros [t H]; discriminate].
    + rewrite andb_true_iff, Z.eqb_eq, IH. split.
      * intros [E [t H]]. exists t. rewrite E, H. reflexivity.
      * intros [t H]. injection H as E H. split; [auto | exists t; exact H].
Qed.

Lemma is_matchb_not_after : forall config key a,
    is_matchb config key a = true -> key_leb config key a = true.
Proof.
  intros config key a. rewrite key_leb_spec.
  unfold is_matchb, exact_matchb, prefix_matchb.
  destruct (exact_match config); intros H; apply Z.leb_le.
  - apply Z.eqb_eq in H. lia.
  - rewrite (compare_bytes_prefix _ _ _ H). apply prefixb_length in H. lia.
Qed.

Lemma no_match_after : forall config key a b,
    key_leb config key a = true -> key_leb config a b = true ->
    is_matchb config key a = false -> is_matchb config key b = false.
Proof.
  intros config key a b. rewrite !key_leb_spec, !Z.leb_le.
  unfold is_matchb, exact_matchb, prefix_matchb.
  destruct (exact_match config); intros Hka Hab H.
  - apply Z.eqb_neq in H. apply Z.eqb_neq.
    assert (0 < compare_bytes (transform (fold config)) key a)%Z by lia.
    pose proof (compare_bytes_lt_le _ _ _ _ H0 Hab). lia.
  - eapply prefixb_monotone; eassumption.
Qed.

Lemma scan_rows_sorted : forall config key rws os,
    forallb (enough_columns config) rws = true ->
    sortedb (key_leb config) (map (key_column config) rws) = true ->
    Forall (key_not_after config key) rws ->
    scan_rows config key rws os
    = (os ++ emit config
                  (filter (fun r => is_matchb config key (key_column config r))
                          rws),
       Ok tt).
Proof.
  intros config key rws. induction rws as [|r rest IH]; intros os Hen Hs Hge.
  - simpl. rewrite app_nil_r. reflexivity.
  - cbn [forallb] in Hen. apply andb_true_iff in Hen. destruct Hen as [Hr Hen].
    cbn [map] in Hs.
    destruct (@sortedb_cons _ _ (@key_leb_trans config) _ _ Hs) as [Hle Hs'].
    inversion Hge as [|? ? Hkr Hge']; subst.
    cbn [scan_rows filter]. rewrite Hr.
    destruct (is_matchb config key (key_column config r)) eqn:Em.
    + rewrite IH by assumption. unfold emit. cbn [flat_map].
      rewrite <- !app_assoc. reflexivity.
    + assert (Hno : filter (fun r => is_matchb config key (key_column config r))
                           rest = []).
      { rewrite Forall_map in Hle. clear - Hle Hkr Em.
        induction Hle as [|x rest Hx _ IHr]; [reflexivity|].
        cbn [filter]. rewrite (@no_match_after config key _ _ Hkr Hx Em).
        exact IHr. }
      rewrite Hno. simpl. rewrite app_nil_r. reflexivity.
Qed.

Lemma filter_key_after : forall config key rws,
    Forall (key_after config key) rws ->
    filter (fun r => is_matchb config key (key_column config r)) rws = [].
Proof.
  intros config key rws H. induction H as [|r rest Hr _ IH]; [reflexivity|].
  cbn [filter].
  destruct (is_matchb config key (key_column config r)) eqn:Em; [|exact IH].
  apply is_matchb_not_after in Em. unfold key_after in Hr. congruence.
Qed.

(** The search on a sorted buffer writes the matching rows, in file order. *)
Lemma Run_search_sorted : forall config key,
    check config = false ->
    1 <= col config ->
    all_enough_columns config = true ->
    sorted_by_key config = true ->
    Run config key
    = (emit config
            (filter (fun r => is_matchb config key (key_column config r))
                    (rows (row_sep config) (file config))),
       Ok tt).
Proof.
  intros config key Hck Hcol Hen Hs. unfold Run, first, last.
  destruct (file config) as [|c0 buf0] eqn:Ef.
  - reflexivity.
  - rewrite <- Ef.
    replace (0 =? length (file config)) with false
      by (symmetry; apply Nat.eqb_neq; rewrite Ef; simpl; lia).
    rewrite Hck.
    destruct (@search_loop_sorted config key Hcol Hen Hs
                (S (length (file config) - 0)) [] (file config) [])
      as (lb & ub & E & Hpost).
    { rewrite app_nil_r. reflexivity. }
    { left. reflexivity. }
    { right. reflexivity. }
    { lia. }
    { constructor. }
    { constructor. }
    cbn [length Nat.add] in E. rewrite E.
    destruct Hpost as [(A & B & Hf & HA & -> & _ & HbA & HbB)
                      | (-> & _ & _ & Hb)].
    + rewrite (@scan_loop_spec config key _ A B)
        by (try assumption; rewrite Hf, length_app; lia).
      unfold all_enough_columns, sorted_by_key in *.
      rewrite Hf, rows_app in * by exact HA.
      rewrite forallb_app in Hen. apply andb_true_iff in Hen.
      rewrite map_app in Hs.
      destruct (@sortedb_app _ _ (@key_leb_trans config) _ _ Hs) as [Hs2 _].
      rewrite scan_rows_sorted by tauto.
      rewrite filter_app.
      rewrite (@filter_key_after config key _ HbA). reflexivity.
    + rewrite scan_loop_done by lia.
      rewrite filter_key_after by exact Hb. reflexivity.
Qed.

(** C1: on a buffer sorted by the key column whose rows all have enough
    columns, a search in exact-match mode writes exactly the rows whose key
    column compares equal to the key under the configured transform, each
    followed by the row separator, in file order, and nothing else. *)
Theorem Run_exact_emits_equal_rows : forall config key,
    check config = false ->
    exact_match config = true ->
    1 <= col config ->
    all_enough_columns config = true ->
    sorted_by_key config = true ->
    Run config key
    = (emit config
            (filter (fun r => exact_matchb config key (key_column config r))
                    (rows (row_sep config) (file config))),
       Ok tt)
    /\ forall column,
        exact_matchb config key column = true
        <-> map (transform (fold config)) key
            = map (transform (fold config)) column.
Proof.
  intros config key Hck Hex Hcol Hen Hs. split.
  - rewrite Run_search_sorted by assumption.
    unfold is_matchb. rewrite Hex. reflexivity.
  - intros column. unfold exact_matchb. rewrite Z.eqb_eq.
    apply compare_bytes_zero.
Qed.

Lemma Run_exact_emits_equal_rows_witness :
  Run (exact_config fruit) (bytes_of_string "banana")
  = (line "banana" "3" ++ line "banana" "4", Ok tt).
Proof.
  destruct (@Run_exact_emits_equal_rows (exact_config fruit)
              (bytes_of_string "banana")
              eq_refl eq_refl (le_n 1) eq_refl eq_refl) as [H _].
  rewrite H. reflexivity.
Defined.

(** C2: on a buffer sorted by the key column whose rows all have enough
    columns, a search in the default (prefix) mode writes exactly the rows
    whose key column has the key as a prefix under the configured transform,
    each followed by the row separator, in file order, and nothing else. *)
Theorem Run_prefix_emits_prefixed_rows : forall config key,
    check config = false ->
    exact_match config = false ->
    1 <= col config ->
    all_enough_columns config = true ->
    sorted_by_key config = true ->
    Run config key
    = (emit config
            (filter (fun r => prefix_matchb config key (key_column config r))
                    (rows (row_sep config) (file config))),
       Ok tt)
    /\ forall column,
        prefix_matchb config key column = true
        <-> exists t, map (transform (fold config)) column
                      = map (transform (fold config)) key ++ t.
Proof.
  intros config key Hck Hex Hcol Hen Hs. split.
  - rewrite Run_search_sorted by assumption.
    unfold is_matchb. rewrite Hex. reflexivity.
  - intros column. apply prefixb_spec.
Qed.

Lemma Run_prefix_emits_prefixed_rows_witness :
  Run (default_config fruit) (bytes_of_string "ban")
  = (line "banana" "3" ++ line "banana" "4", Ok tt).
Proof.
  destruct (@Run_prefix_emits_prefixed_rows (default_config fruit)
              (bytes_of_string "ban")
              eq_refl eq_refl (le_n 1) eq_refl eq_refl) as [H _].
  rewrite H. reflexivity.
Defined.

(** ** Where the binary search ends *)

(** A terminated stretch is the concatenation of its rows, each followed by
    the row separator. *)
Lemma emit_rows : forall config A,
    terminated config A -> emit config (rows (row_sep config) A) = A.
Proof.
  intros config A. induction A as [|c A IH]; intros HA.
  - reflexivity.
  - specialize (IH (terminated_tail HA)).
    simpl. destruct (c =? row_sep config)%Z eqn:Ec.
    + apply Z.eqb_eq in Ec. subst c. unfold emit in *. simpl. rewrite IH.
      reflexivity.
    + destruct (rows (row_sep config) A) as [|x xs] eqn:Er.
      * apply rows_nil_inv in Er. subst A.
        destruct HA as [HA | [X' HA]]; [discriminate|].
        destruct X' as [|? [|? ?]]; simpl in HA; try discriminate.
        injection HA as HA. apply Z.eqb_neq in Ec. congruence.
      * unfold emit in *. simpl in *. rewrite IH. reflexivity.
Qed.

Lemma first_geq_offset_after : forall config key rsA rsB off,
    Forall (key_after config key) rsA ->
    first_geq_offset config key off (rsA ++ rsB)
    = first_geq_offset config key (off + length (emit config rsA)) rsB.
Proof.
  intros config key rsA rsB off H. revert off.
  induction H as [|r rest Hr _ IH]; intros off.
  - simpl. rewrite Nat.add_0_r. reflexivity.
  - cbn [app first_geq_offset]. unfold key_after in Hr. rewrite Hr, IH.
    f_equal. unfold emit. cbn [flat_map]. rewrite !length_app. simpl. lia.
Qed.

Lemma first_geq_offset_none : forall config key rws off,
    Forall (key_after config key) rws ->
    first_geq_offset config key off rws = None.
Proof.
  intros config key rws off H.
  rewrite <- (app_nil_r rws), first_geq_offset_after by exact H. reflexivity.
Qed.

(** C3: on a non-empty buffer sorted by the key column whose rows all have
    enough columns, the binary search loop terminates.  If some row has a key
    column not before the key, it ends with [lb = ub] at the offset of the
    first such row.  If there is none, it ends with [ub] at the buffer end
    and [lb] at the buffer end when the buffer ends with the row separator,
    and with [lb] one past the buffer end ([lb = ub + 1]) when the final row
    has no row separator. *)
Theorem search_loop_lower_bound : forall config key,
    1 <= col config ->
    all_enough_columns config = true ->
    sorted_by_key config = true ->
    file config <> [] ->
    exists lb ub,
      search_loop config (S (last config - first config))
                  (StringBlock.of_string key) (first config) (last config)
      = Ok (lb, ub)
      /\ match first_geq_offset config key 0
                                (rows (row_sep config) (file config)) with
         | Some o => lb = o /\ ub = o
         | None =>
           ub = length (file config)
           /\ lb = if terminatedb config (file config)
                   then length (file config)
                   else length (file config) + 1
         end.
Proof.
  intros config key Hcol Hen Hs Hne. unfold first, last.
  destruct (@search_loop_sorted config key Hcol Hen Hs
              (S (length (file config) - 0)) [] (file config) [])
    as (lb & ub & E & Hpost).
  { rewrite app_nil_r. reflexivity. }
  { left. reflexivity. }
  { right. reflexivity. }
  { lia. }
  { constructor. }
  { constructor. }
  cbn [length Nat.add] in E. exists lb, ub. split; [exact E|].
  destruct Hpost as [(A & B & Hf & HA & -> & -> & HbA & HbB)
                    | (-> & -> & HT & Hb)].
  - assert (Hrows : rows (row_sep config) (file config)
                    = rows (row_sep config) A ++ rows (row_sep config) B)
      by (rewrite Hf; apply rows_app; exact HA).
    rewrite Hrows, first_geq_offset_after by exact HbA.
    rewrite emit_rows by exact HA. cbn [Nat.add].
    destruct (rows (row_sep config) B) as [|r rest] eqn:Er.
    + apply rows_nil_inv in Er. subst B. rewrite app_nil_r in Hf.
      cbn [first_geq_offset].
      assert (HT : terminatedb config (file config) = true)
        by (apply terminatedb_spec; rewrite Hf; exact HA).
      rewrite HT, Hf. split; reflexivity.
    + cbn [first_geq_offset]. inversion HbB as [|? ? Hr _]; subst.
      unfold key_not_after in Hr. rewrite Hr. split; reflexivity.
  - rewrite first_geq_offset_none by exact Hb. rewrite HT.
    split; reflexivity.
Qed.

Lemma search_loop_lower_bound_witness :
  exists lb ub,
    search_loop (default_config fruit) (S (last (default_config fruit)
                                           - first (default_config fruit)))
                (StringBlock.of_string (bytes_of_string "banana"))
                (first (default_config fruit)) (last (default_config fruit))
    = Ok (lb, ub)
    /\ lb = 16 /\ ub = 16.
Proof.
  destruct (@search_loop_lower_bound (default_config fruit)
              (bytes_of_string "banana") (le_n 1) eq_refl eq_refl)
    as (lb & ub & E & H).
  - discriminate.
  - exists lb, ub. split; [exact E | exact H].
Defined.

(** C3, as stated, fails on a buffer whose final row has no row separator:
    for the one-row buffer "a" and the key "b" the loop ends with [lb = 2]
    and [ub = 1]. *)
Lemma search_loop_lower_bound_counterexample :
  all_enough_columns unterminated_config = true
  /\ sorted_by_key unterminated_config = true
  /\ file unterminated_config <> []
  /\ search_loop unterminated_config
                 (S (last unterminated_config - first unterminated_config))
                 (StringBlock.of_string (bytes_of_string "b"))
                 (first unterminated_config) (last unterminated_config)
     = Ok (2, 1)
  /\ ~ lower_bound_at_equal_bounds unterminated_config (bytes_of_string "b").
Proof.
  repeat split; try discriminate.
  intros (lb & E & _). vm_compute in E. injection E as E1 E2. lia.
Qed.

(** ** Check mode *)

Lemma key_leb_lex_leb : forall config a b,
    key_leb config a b = lex_leb (transform (fold config)) a b.
Proof.
  intros config a b. rewrite key_leb_spec.
  generalize (transform (fold config)) as f. intros f. revert b.
  induction a as [|x a IH]; intros b.
  - rewrite compare_bytes_nil_l. simpl. apply Z.leb_le. lia.
  - destruct b as [|y b].
    + rewrite compare_bytes_nil_r. cbn [lex_leb length].
      apply Z.leb_gt. lia.
    + cbn [compare_bytes lex_leb].
      destruct (Z.eqb_spec (f x) (f y)) as [E|N].
      * rewrite IH. replace (f x <? f y)%Z with false
          by (symmetry; apply Z.ltb_ge; lia). reflexivity.
      * destruct (Z.ltb_spec (f x) (f y)) as [L|G].
        -- apply Z.leb_le. lia.
        -- apply Z.leb_gt. lia.
Qed.

Lemma sortedb_ext : forall (A : Type) (leb1 leb2 : A -> A -> bool) l,
    (forall a b, leb1 a b = leb2 a b) ->
    sortedb leb1 l = sortedb leb2 l.
Proof.
  intros A leb1 leb2 l H. induction l as [|x l IH]; [reflexivity|].
  cbn [sortedb]. destruct l as [|y l']; [reflexivity|].
  rewrite H, IH. reflexivity.
Qed.

Lemma check_rows_ok_iff : forall config rws prev,
    forallb (enough_columns config) rws = true ->
    (check_rows config prev rws = Ok tt
     <-> sortedb (key_leb config) (prev :: map (key_column config) rws) = true).
Proof.
  intros config rws. induction rws as [|r rest IH]; intros prev Hen.
  - simpl. tauto.
  - cbn [forallb] in Hen. apply andb_true_iff in Hen. destruct Hen as [Hr Hen].
    cbn [check_rows map]. rewrite Hr.
    change (sortedb (key_leb config)
                    (prev :: key_column config r
                          :: map (key_column config) rest))
      with (key_leb config prev (key_column config r)
            && sortedb (key_leb config)
                       (key_column config r :: map (key_column config) rest)).
    destruct (key_leb config prev (key_column config r)).
    + rewrite (IH _ Hen). simpl. tauto.
    + simpl. split; discriminate.
Qed.

Lemma sortedb_nil_first : forall config keys,
    sortedb (key_leb config) ([] :: keys) = sortedb (key_leb config) keys.
Proof.
  intros config keys. destruct keys as [|k keys]; [reflexivity|].
  change (sortedb (key_leb config) ([] :: k :: keys))
    with (key_leb config [] k && sortedb (key_leb config) (k :: keys)).
  rewrite key_leb_lex_leb. reflexivity.
Qed.

Lemma Run_check : forall config key,
    check config = true ->
    1 <= col config ->
    Run config key
    = ([], check_rows config [] (rows (row_sep config) (file config))).
Proof.
  intros config key Hck Hcol. unfold Run, first, last.
  destruct (file config) as [|c0 buf0] eqn:Ef.
  - reflexivity.
  - rewrite <- Ef.
    replace (0 =? length (file config)) with false
      by (symmetry; apply Nat.eqb_neq; rewrite Ef; simpl; lia).
    rewrite Hck. unfold StringBlock.make. cbn [Nat.ltb Nat.leb].
    f_equal.
    apply (@check_loop_spec config _ [] (file config)
                            (StringBlock.mk (file config) 0 0));
      try assumption; try reflexivity; try lia.
    unfold StringBlock.valid. simpl. lia.
Qed.

(** C4: when every row has enough columns, check mode completes without
    error exactly when every row's key column sorts at or before the key
    column of the row after it; the comparison of the first row with the
    initial, empty previous column changes nothing. *)
Theorem check_succeeds_iff_sorted : forall config key,
    check config = true ->
    1 <= col config ->
    all_enough_columns config = true ->
    let keys := map (key_column config)
                    (rows (row_sep config) (file config)) in
    (Run config key = ([], Ok tt)
     <-> sortedb (lex_leb (transform (fold config))) keys = true)
    /\ (Run config key = ([], Ok tt)
        <-> sortedb (lex_leb (transform (fold config))) ([] :: keys) = true)
    /\ fst (Run config key) = [].
Proof.
  intros config key Hck Hcol Hen keys.
  rewrite Run_check by assumption.
  rewrite <- !(@sortedb_ext _ (key_leb config)
                 (lex_leb (transform (fold config))))
    by apply key_leb_lex_leb.
  pose proof (@check_rows_ok_iff config _ [] Hen) as H. fold keys in H.
  repeat split.
  - intros E. injection E as E. apply H in E.
    rewrite sortedb_nil_first in E. exact E.
  - intros E. f_equal. apply H. rewrite sortedb_nil_first. exact E.
  - intros E. injection E as E. apply H. exact E.
  - intros E. f_equal. apply H. exact E.
Qed.

Lemma check_succeeds_iff_sorted_witness :
  Run (check_config fruit) [] = ([], Ok tt)
  /\ Run (check_config unordered_buffer) [] <> ([], Ok tt).
Proof.
  split.
  - apply (@check_succeeds_iff_sorted (check_config fruit) []
             eq_refl (le_n 1) eq_refl).
    reflexivity.
  - intros E.
    apply (@check_succeeds_iff_sorted (check_config unordered_buffer) []
             eq_refl (le_n 1) eq_refl) in E.
    discriminate E.
Defined.

(** C5: in check mode the row at the cursor is accepted when
    [Compare(previousColumn, column)] is not negative and rejected when it
    is negative; the rejection is raised in the same iteration, carries the
    bytes of that row, and does not depend on anything that follows the row
    in the buffer. *)
Theorem check_loop_rejects_negative_compare : forall config X r Y prev,
    file config = X ++ r ++ Y ->
    rs_free config r ->
    r ++ Y <> [] ->
    (Y = [] \/ exists Y', Y = row_sep config :: Y') ->
    1 <= col config ->
    enough_columns config r = true ->
    StringBlock.valid prev ->
    exists column z,
      (exists row_end col_pos,
          FindRowEnd config (length X) (last config) [length X]
          = Ok (row_end, col_pos)
          /\ GetColumn config col_pos (length X) row_end = Ok column)
      /\ StringBlock.bytes column = key_column config r
      /\ Compare config prev column = Ok z
      /\ forall k,
          check_loop config (S k) prev (length X) (last config)
          = if (z <? 0)%Z then Throw (UnorderedInput r)
            else check_loop config k column (length X + length r + 1)
                            (last config).
Proof.
  intros config X r Y prev Hf Hr Hne HY Hcol Hen Vp. unfold last.
  assert (Hend : FindRowEnd config (length X) (length (file config)) [length X]
                 = Ok (length X + length r,
                       bounds (col_sep config) (length X) r)).
  { apply (@resolve_forward config X r Y); try assumption.
    - rewrite Hf, !length_app. lia.
    - destruct HY as [-> | HY]; [left | right; exact HY].
      rewrite Hf, !length_app. simpl. lia. }
  destruct (@GetColumn_ok config X r Y Hf Hcol Hen)
    as (a & e & _ & _ & EG & Vb & Hb).
  exists (StringBlock.mk (file config) a e).
  eexists. split; [|split; [exact Hb | split]].
  - eexists. eexists. split; [exact Hend | exact EG].
  - apply Compare_config_spec; assumption.
  - intros k. cbn [check_loop].
    replace (length X <? length (file config)) with true
      by (symmetry; apply Nat.ltb_lt; rewrite Hf, !length_app;
          destruct r; destruct Y; simpl in *; try congruence; lia).
    rewrite Hend. cbn [bind]. rewrite EG. cbn [bind].
    rewrite Compare_config_spec by assumption. cbn [bind].
    destruct (_ <? 0)%Z; [|reflexivity].
    rewrite Hf at 1. rewrite string_of_row. reflexivity.
Qed.

Lemma check_loop_rejects_negative_compare_witness :
  check_loop unordered_config 1
             (StringBlock.mk (file unordered_config) 0 1) 2
             (last unordered_config)
  = Throw (UnorderedInput (bytes_of_string "a")).
Proof.
  destruct (@check_loop_rejects_negative_compare unordered_config
              (bytes_of_string "b" ++ [LF]) (bytes_of_string "a") [LF]
              (StringBlock.mk (file unordered_config) 0 1))
    as (column & z & (row_end & col_pos & E1 & E2) & Hb & Ez & Hstep).
  - reflexivity.
  - repeat constructor; discriminate.
  - discriminate.
  - right. exists []. reflexivity.
  - apply le_n.
  - reflexivity.
  - unfold StringBlock.valid. simpl. lia.
  - specialize (Hstep 0).
    vm_compute in E1. injection E1 as <- <-.
    vm_compute in E2. injection E2 as <-.
    vm_compute in Ez. injection Ez as <-.
    exact Hstep.
Defined.

(** C5, as stated, has the sign reversed: on the buffer "b\na\n" the second
    row is compared with [Compare(previousColumn, column) = -1], which is
    not positive, and the checker rejects it. *)
Lemma unordered_iff_compare_positive_counterexample :
  Compare unordered_config (StringBlock.mk (file unordered_config) 0 1)
          (StringBlock.mk (file unordered_config) 2 3) = Ok (-1)%Z
  /\ Run unordered_config []
     = ([], Throw (UnorderedInput (bytes_of_string "a")))
  /\ ~ unordered_iff_compare_positive
        unordered_config (StringBlock.mk (file unordered_config) 0 1) 2.
Proof.
  split; [reflexivity | split; [reflexivity|]].
  intros H.
  specialize (H 3 [2; 4] (StringBlock.mk (file unordered_config) 2 3) (-1)%Z
                eq_refl eq_refl eq_refl).
  destruct H as [H _].
  assert (0 < -1)%Z; [|lia].
  apply H. eexists. vm_compute. reflexivity.
Qed.

(** ** Column extraction on resolved rows *)

(** C7: for a resolved row (by a forward scan from its first byte, or by
    the backward and forward scans from a pivot inside it, which leave the
    same column starts), [GetColumn] throws the not-enough-columns error,
    carrying the row's bytes, exactly when the column-start list has fewer
    than [col + 1] entries, that is when the row has fewer than [col]
    columns; otherwise it returns the block from [col_pos[col - 1]] up to
    but excluding [col_pos[col] - 1], whose bytes are the column without
    its separator. *)
Theorem GetColumn_resolved_row : forall config X r Y ub,
    file config = X ++ r ++ Y ->
    rs_free config r ->
    length X + length r <= ub ->
    (ub = length X + length r \/ exists Y', Y = row_sep config :: Y') ->
    1 <= col config ->
    exists row_end col_pos,
      FindRowEnd config (length X) ub [length X] = Ok (row_end, col_pos)
      /\ (forall r1 r2 lb,
             r = r1 ++ r2 ->
             lb <= length X ->
             (lb = length X \/ exists X', X = X' ++ [row_sep config]) ->
             exists cp,
               FindRowBegin config (length X + length r1) lb []
               = Ok (length X, cp)
               /\ FindRowEnd config (length X + length r1) ub cp
                  = Ok (row_end, col_pos))
      /\ string_of (file config) (length X) row_end = Ok r
      /\ (length col_pos < col config + 1
          <-> length (fields (col_sep config) r) < col config)
      /\ (GetColumn config col_pos (length X) row_end
          = Throw (NotEnoughColumns r)
          <-> length col_pos < col config + 1)
      /\ (col config + 1 <= length col_pos ->
          exists a b,
            nth_error col_pos (col config - 1) = Some a
            /\ nth_error col_pos (col config) = Some b
            /\ GetColumn config col_pos (length X) row_end
               = Ok (StringBlock.mk (file config) a (b - 1))
            /\ StringBlock.bytes (StringBlock.mk (file config) a (b - 1))
               = nth (col config - 1) (fields (col_sep config) r) []).
Proof.
  intros config X r Y ub Hf Hr Hub HY Hcol.
  exists (length X + length r), (bounds (col_sep config) (length X) r).
  assert (Hlen : length (bounds (col_sep config) (length X) r) < col config + 1
                 <-> length (fields (col_sep config) r) < col config)
    by (rewrite length_bounds; lia).
  split; [|split; [|split; [|split; [exact Hlen | split]]]].
  - apply (@resolve_forward config X r Y); assumption.
  - intros r1 r2 lb -> Hlb Hbeg.
    apply (@resolve_around config X r1 r2 Y lb ub); assumption.
  - rewrite Hf. apply string_of_row.
  - destruct (enough_columns config r) eqn:Een.
    + destruct (@GetColumn_ok config X r Y Hf Hcol Een)
        as (a & e & _ & _ & EG & _).
      rewrite EG. unfold enough_columns in Een. apply Nat.leb_le in Een.
      split; [discriminate | lia].
    + rewrite (@GetColumn_short config X r Y Hf Een).
      unfold enough_columns in Een. apply Nat.leb_gt in Een.
      split; [intros _; apply Hlen; exact Een | reflexivity].
  - intros Hge.
    assert (Een : enough_columns config r = true)
      by (unfold enough_columns; apply Nat.leb_le; lia).
    destruct (@GetColumn_ok config X r Y Hf Hcol Een)
      as (a & e & H1 & H2 & EG & _ & Hb).
    exists a, (e + 1). rewrite Nat.add_sub.
    repeat split; assumption.
Qed.

Lemma GetColumn_resolved_row_witness :
  exists row_end col_pos,
    FindRowEnd second_column_config 0 (last second_column_config) [0]
    = Ok (row_end, col_pos)
    /\ GetColumn second_column_config col_pos 0 row_end
       = Ok (StringBlock.mk (file second_column_config) 6 7).
Proof.
  destruct (@GetColumn_resolved_row second_column_config []
              (bytes_of_string "apple" ++ [TAB] ++ bytes_of_string "1")
              (LF :: skipn 8 fruit) (last second_column_config))
    as (row_end & col_pos & E & _ & _ & _ & _ & H).
  - reflexivity.
  - repeat constructor; discriminate.
  - vm_compute. lia.
  - right. eexists. reflexivity.
  - simpl. lia.
  - exists row_end, col_pos. split; [exact E|].
    vm_compute in E. injection E as <- <-.
    destruct H as (a & b & H1 & H2 & EG & _); [simpl; lia|].
    vm_compute in H1. injection H1 as <-.
    vm_compute in H2. injection H2 as <-.
    exact EG.
Defined.

(** C8: [FindRowEnd(pos, ub)] stops at the first row separator at or after
    [pos], or at [ub] when there is none, and the entry it appends last to
    the column-start list is that position plus one: one past the row
    separator, two past the row's last byte.  [GetColumn] subtracts one, so
    for the row's last column the block it returns ends at the row end. *)
Theorem FindRowEnd_trailing_entry : forall config pos ub cp,
    pos <= ub ->
    ub <= length (file config) ->
    exists row_end cp',
      FindRowEnd config pos ub cp = Ok (row_end, cp')
      /\ pos <= row_end /\ row_end <= ub
      /\ rs_free config (slice (file config) pos row_end)
      /\ (row_end = ub
          \/ nth_error (file config) row_end = Some (row_sep config))
      /\ List.last cp' 0 = row_end + 1
      /\ (cp = [pos] ->
          col config
          = length (fields (col_sep config) (slice (file config) pos row_end)) ->
          exists a,
            GetColumn config cp' pos row_end
            = Ok (StringBlock.mk (file config) a row_end)).
Proof.
  intros config pos ub cp Hpos Hub.
  set (X := firstn pos (file config)).
  assert (HX : length X = pos) by (unfold X; rewrite length_firstn; lia).
  destruct (break_first config (slice (file config) pos ub))
    as (r & Y & HS & Hr & HY).
  set (Z := skipn ub (file config)).
  assert (Hf : file config = X ++ r ++ Y ++ Z).
  { assert (Hsk : skipn pos (file config) = slice (file config) pos ub ++ Z).
    { unfold slice, Z.
      rewrite <- (firstn_skipn (ub - pos) (skipn pos (file config))) at 1.
      f_equal. rewrite skipn_skipn. f_equal. lia. }
    rewrite <- (firstn_skipn pos (file config)) at 1. fold X.
    rewrite Hsk, HS, <- app_assoc. reflexivity. }
  assert (HlenS : length r + length Y = ub - pos).
  { rewrite <- length_app, <- HS. unfold slice.
    rewrite length_firstn, length_skipn. lia. }
  assert (Hslice : slice (file config) pos (pos + length r) = r).
  { rewrite Hf at 1. rewrite <- HX. apply slice_app_mid. }
  exists (pos + length r), (cp ++ colstarts (col_sep config) pos r
                               ++ [pos + length r + 1]).
  rewrite Hslice.
  split; [|split; [lia | split; [lia | split; [exact Hr | split; [|split]]]]].
  - rewrite <- HX.
    apply (@FindRowEnd_spec config r X (Y ++ Z) ub cp Hf Hr); [lia|].
    destruct HY as [-> | [Y' ->]]; [left | right].
    + simpl in HlenS. lia.
    + eexists. reflexivity.
  - destruct HY as [-> | [Y' ->]]; [left | right].
    + simpl in HlenS. lia.
    + rewrite Hf, <- HX. rewrite app_assoc. simpl.
      rewrite <- length_app. apply nth_error_app_mid.
  - rewrite !app_assoc. apply last_last.
  - intros -> Hc.
    assert (Hcol : 1 <= col config).
    { rewrite Hc. pose proof (@fields_nonempty (col_sep config) r).
      destruct (fields (col_sep config) r); simpl; [congruence | lia]. }
    assert (Een : enough_columns config r = true)
      by (unfold enough_columns; apply Nat.leb_le; lia).
    destruct (@GetColumn_ok config X r (Y ++ Z) Hf Hcol Een)
      as (a & e & _ & H2 & EG & _).
    rewrite HX in *. exists a.
    change ([pos] ++ colstarts (col_sep config) pos r ++ [pos + length r + 1])
      with (bounds (col_sep config) pos r).
    rewrite EG. repeat f_equal.
    unfold bounds in H2.
    change (pos :: colstarts (col_sep config) pos r ++ [pos + length r + 1])
      with ((pos :: colstarts (col_sep config) pos r)
              ++ [pos + length r + 1]) in H2.
    pose proof (@length_bounds (col_sep config) r pos) as HL.
    unfold bounds in HL.
    change (pos :: colstarts (col_sep config) pos r ++ [pos + length r + 1])
      with ((pos :: colstarts (col_sep config) pos r)
              ++ [pos + length r + 1]) in HL.
    rewrite length_app in HL. cbn [length] in HL.
    rewrite nth_error_app2 in H2 by (cbn [length]; lia).
    replace (col config - length (pos :: colstarts (col_sep config) pos r))
      with 0 in H2 by (cbn [length]; lia).
    simpl in H2. injection H2 as H2. lia.
Qed.

Lemma FindRowEnd_trailing_entry_witness :
  exists row_end cp',
    FindRowEnd single_row_config 0 2 [0] = Ok (row_end, cp')
    /\ row_end = 1 /\ List.last cp' 0 = 2.
Proof.
  destruct (@FindRowEnd_trailing_entry single_row_config 0 2 [0])
    as (row_end & cp' & E & _ & _ & _ & _ & HL & _).
  - lia.
  - simpl. lia.
  - exists row_end, cp'. split; [exact E|].
    vm_compute in E. injection E as <- <-. split; reflexivity.
Defined.

(** C8, as stated, is off by one: on the buffer "a\n" the scan from the
    start returns the row end 1, the position one past the row's last byte,
    and the entry it appends last is 2. *)
Lemma trailing_entry_is_row_end_counterexample :
  FindRowEnd single_row_config 0 2 [0] = Ok (1, [0; 2])
  /\ ~ trailing_entry_is_row_end single_row_config 0 2 [0].
Proof.
  split; [reflexivity|].
  intros H. specialize (H 1 [0; 2] eq_refl). discriminate H.
Qed.

(** ** Reads stay inside the buffer *)

Lemma scan_rows_safe : forall config key rws os,
    snd (scan_rows config key rws os) = Ok tt
    \/ exists r, snd (scan_rows config key rws os) = Throw (NotEnoughColumns r).
Proof.
  intros config key rws. induction rws as [|r rest IH]; intros os.
  - left. reflexivity.
  - cbn [scan_rows]. destruct (enough_columns config r).
    + destruct (is_matchb config key (key_column config r));
        [apply IH | left; reflexivity].
    + right. exists r. reflexivity.
Qed.

Lemma check_rows_safe : forall config rws prev,
    check_rows config prev rws = Ok tt
    \/ exists e, check_rows config prev rws = Throw e.
Proof.
  intros config rws. induction rws as [|r rest IH]; intros prev.
  - left. reflexivity.
  - cbn [check_rows]. destruct (enough_columns config r).
    + destruct (key_leb config prev (key_column config r));
        [apply IH | right; eexists; reflexivity].
    + right. eexists. reflexivity.
Qed.

Lemma search_loop_safe : forall config key fuel A M B,
    file config = A ++ M ++ B ->
    terminated config A ->
    terminated config (A ++ M) \/ B = [] ->
    length M < fuel ->
    1 <= col config ->
    (exists lb ub,
        search_loop config fuel (StringBlock.of_string key)
                    (length A) (length A + length M) = Ok (lb, ub)
        /\ lb <= length (file config) + 1)
    \/ (exists r,
           search_loop config fuel (StringBlock.of_string key)
                       (length A) (length A + length M)
           = Throw (NotEnoughColumns r)).
Proof.
  intros config key fuel. induction fuel as [|k IH];
    intros A M B Hf HA HAM Hfuel Hcol; [lia|].
  destruct M as [|m M'] eqn:EM.
  - left. exists (length A), (length A + 0). split.
    + apply search_loop_done. simpl. lia.
    + rewrite Hf, !length_app. lia.
  - rewrite <- EM in *. assert (HM : M <> []) by (rewrite EM; discriminate).
    clear EM m M'.
    destruct (@probe_step config key A M B Hf HA HAM HM Hcol)
      as (M1 & row & M2 & HMeq & HM1 & Hrow & HM2 & Hstep).
    rewrite Hstep. clear Hstep.
    destruct (enough_columns config row); [|right; eexists; reflexivity].
    destruct (compare_bytes (transform (fold config)) key
                            (key_column config row) >=? 0)%Z.
    + apply (IH A M1 (row ++ M2 ++ B)).
      * rewrite Hf, HMeq, <- !app_assoc. reflexivity.
      * exact HA.
      * left. apply terminated_app; assumption.
      * rewrite HMeq, !length_app in Hfuel.
        destruct HM2 as [(-> & _ & Hne) | [M2' ->]].
        -- destruct row; [congruence|]. simpl in Hfuel. lia.
        -- simpl in Hfuel. lia.
      * exact Hcol.
    + destruct HM2 as [(-> & -> & Hne) | [M2' ->]].
      * left. eexists. eexists. split.
        -- destruct k as [|k']; [destruct M; simpl in *; [congruence|lia]|].
           apply search_loop_done. rewrite HMeq, !length_app. simpl. lia.
        -- rewrite Hf, HMeq, !length_app. simpl. lia.
      * specialize (IH (A ++ M1 ++ row ++ [row_sep config]) M2' B).
        rewrite !length_app in IH. cbn [length] in IH.
        replace (length A + (length M1 + (length row + 1)))
          with (length A + length M1 + length row + 1) in IH by lia.
        replace (length A + length M1 + length row + 1 + length M2')
          with (length A + length M) in IH
          by (rewrite HMeq, !length_app; simpl; lia).
        apply IH.
        -- rewrite Hf, HMeq, <- !app_assoc. reflexivity.
        -- apply terminated_app; [exact HA|].
           apply terminated_app; [exact HM1 | apply terminated_row].
        -- destruct HAM as [HAM | HB]; [left | right; exact HB].
           rewrite HMeq in HAM. rewrite <- !app_assoc. simpl. exact HAM.
        -- rewrite HMeq, !length_app in Hfuel. simpl in Hfuel. lia.
        -- exact Hcol.
Qed.

(** C10: for every buffer, key and configuration with a key-column index of
    at least one, a run (search or check) never dereferences an offset
    outside the buffer and never exhausts the fuel of a loop: it ends
    normally or with one of the two errors of the program. *)
Theorem Run_reads_within_buffer : forall config key,
    1 <= col config ->
    snd (Run config key) <> Fault /\ snd (Run config key) <> OutOfFuel.
Proof.
  intros config key Hcol.
  assert (H : snd (Run config key) = Ok tt
              \/ exists e, snd (Run config key) = Throw e).
  { destruct (check config) eqn:Hck.
    - rewrite Run_check by assumption. cbn [snd]. apply check_rows_safe.
    - unfold Run, first, last. rewrite Hck.
      destruct (file config) as [|c0 buf0] eqn:Ef; [left; reflexivity|].
      rewrite <- Ef.
      replace (0 =? length (file config)) with false
        by (symmetry; apply Nat.eqb_neq; rewrite Ef; simpl; lia).
      destruct (@search_loop_safe config key (S (length (file config) - 0))
                  [] (file config) [])
        as [(lb & ub & E & Hlb) | (r & E)];
        try (rewrite ?app_nil_r; reflexivity); try lia;
        try (left; reflexivity); try (right; reflexivity).
      + cbn [length Nat.add] in E. rewrite E.
        destruct (Nat.le_gt_cases lb (length (file config))) as [Hle|Hgt].
        * pose proof (@scan_loop_spec config key
                        (S (length (file config) - lb))
                        (firstn lb (file config)) (skipn lb (file config)) [])
            as Hs.
          rewrite length_firstn, Nat.min_l in Hs by exact Hle.
          rewrite Hs.
          -- destruct (scan_rows_safe config key
                        (rows (row_sep config) (skipn lb (file config))) [])
              as [H | [r H]]; [left; exact H | right; eexists; exact H].
          -- symmetry. apply firstn_skipn.
          -- rewrite length_skipn. lia.
          -- exact Hcol.
        * rewrite scan_loop_done by lia. left. reflexivity.
      + cbn [length Nat.add] in E. rewrite E. right. eexists. reflexivity. }
  destruct H as [H | [e H]]; rewrite H; split; discriminate.
Qed.

Lemma Run_reads_within_buffer_witness :
  snd (Run unterminated_config (bytes_of_string "b")) <> Fault
  /\ snd (Run unterminated_config (bytes_of_string "b")) <> OutOfFuel.
Proof.
  apply (@Run_reads_within_buffer unterminated_config
           (bytes_of_string "b") (le_n 1)).
Defined.

(** * Further properties of the code *)

(** ** StringBlock: the order and the prefix test *)

(** [Compare] is antisymmetric: swapping the two blocks negates the result,
    so of any two blocks one is not after the other. *)
Theorem Compare_antisymmetric : forall (fold : bool) (a b : StringBlock.t),
    StringBlock.valid a -> StringBlock.valid b ->
    exists z,
      StringBlock.Compare a b (transform fold) = Ok z
      /\ StringBlock.Compare b a (transform fold) = Ok (- z)%Z.
Proof.
  intros fold a b Va Vb. rewrite !Compare_spec by assumption.
  eexists. split; [reflexivity|]. f_equal. apply compare_bytes_antisym.
Qed.

Lemma Compare_antisymmetric_witness :
  exists z,
    StringBlock.Compare (StringBlock.of_string (bytes_of_string "ab"))
                        (StringBlock.of_string (bytes_of_string "b"))
                        (transform false) = Ok z
    /\ StringBlock.Compare (StringBlock.of_string (bytes_of_string "b"))
                           (StringBlock.of_string (bytes_of_string "ab"))
                           (transform false) = Ok (- z)%Z.
Proof.
  apply (@Compare_antisymmetric false
           (StringBlock.of_string (bytes_of_string "ab"))
           (StringBlock.of_string (bytes_of_string "b"))
           (conj (le_0_n 2) (le_n 2)) (conj (le_0_n 1) (le_n 1))).
Defined.

(** [Compare] is transitive: when [a] is not after [b] and [b] is not after
    [c], then [a] is not after [c]. *)
Theorem Compare_transitive : forall (fold : bool) (a b c : StringBlock.t) x y,
    StringBlock.valid a -> StringBlock.valid b -> StringBlock.valid c ->
    StringBlock.Compare a b (transform fold) = Ok x -> (0 <= x)%Z ->
    StringBlock.Compare b c (transform fold) = Ok y -> (0 <= y)%Z ->
    exists z, StringBlock.Compare a c (transform fold) = Ok z /\ (0 <= z)%Z.
Proof.
  intros fold a b c x y Va Vb Vc Hx Px Hy Py.
  rewrite Compare_spec in * by assumption.
  injection Hx as <-. injection Hy as <-.
  eexists. split; [reflexivity|].
  eapply compare_bytes_trans; eassumption.
Qed.

Lemma Compare_transitive_witness :
  exists z,
    StringBlock.Compare (StringBlock.of_string (bytes_of_string "a"))
                        (StringBlock.of_string (bytes_of_string "b"))
                        (transform true) = Ok z
    /\ (0 <= z)%Z.
Proof.
  apply (@Compare_transitive true
           (StringBlock.of_string (bytes_of_string "a"))
           (StringBlock.of_string (bytes_of_string "Ab"))
           (StringBlock.of_string (bytes_of_string "b")) 1%Z 1%Z
           (conj (le_0_n 1) (le_n 1)) (conj (le_0_n 2) (le_n 2))
           (conj (le_0_n 1) (le_n 1)));
    try reflexivity; lia.
Defined.

(** [Compare] returns zero exactly when the two blocks have the same
    transformed bytes. *)
Theorem Compare_zero_iff_equal : forall (fold : bool) (a b : StringBlock.t),
    StringBlock.valid a -> StringBlock.valid b ->
    (StringBlock.Compare a b (transform fold) = Ok 0%Z
     <-> map (transform fold) (StringBlock.bytes a)
         = map (transform fold) (StringBlock.bytes b)).
Proof.
  intros fold a b Va Vb. rewrite Compare_spec by assumption.
  rewrite <- compare_bytes_zero. split; intros H.
  - injection H as H. exact H.
  - rewrite H. reflexivity.
Qed.

Lemma Compare_zero_iff_equal_witness :
  StringBlock.Compare (StringBlock.of_string (bytes_of_string "aB"))
                      (StringBlock.of_string (bytes_of_string "Ab"))
                      (transform true) = Ok 0%Z.
Proof.
  apply (@Compare_zero_iff_equal true
           (StringBlock.of_string (bytes_of_string "aB"))
           (StringBlock.of_string (bytes_of_string "Ab"))
           (conj (le_0_n 2) (le_n 2)) (conj (le_0_n 2) (le_n 2))).
  reflexivity.
Defined.

(** [IsPrefixOf] always returns, and returns true exactly when the
    transformed bytes of [c] start with the transformed bytes of [k]. *)
Theorem IsPrefixOf_iff_prefix : forall (fold : bool) (k c : StringBlock.t),
    StringBlock.valid k -> StringBlock.valid c ->
    (exists b, StringBlock.IsPrefixOf k c (transform fold) = Ok b)
    /\ (StringBlock.IsPrefixOf k c (transform fold) = Ok true
        <-> exists t, map (transform fold) (StringBlock.bytes c)
                      = map (transform fold) (StringBlock.bytes k) ++ t).
Proof.
  intros fold k c Vk Vc. rewrite IsPrefixOf_spec by assumption.
  split; [eexists; reflexivity|].
  rewrite <- prefixb_spec. split; intros H.
  - injection H as H. exact H.
  - rewrite H. reflexivity.
Qed.

Lemma IsPrefixOf_iff_prefix_witness :
  StringBlock.IsPrefixOf (StringBlock.of_string (bytes_of_string "ban"))
                         (StringBlock.of_string (bytes_of_string "banana"))
                         (transform false) = Ok true.
Proof.
  apply (@IsPrefixOf_iff_prefix false
           (StringBlock.of_string (bytes_of_string "ban"))
           (StringBlock.of_string (bytes_of_string "banana"))
           (conj (le_0_n 3) (le_n 3)) (conj (le_0_n 6) (le_n 6))).
  exists (bytes_of_string "ana"). reflexivity.
Defined.





(** An exact match is a prefix match: when [Compare(k, c)] is zero,
    [IsPrefixOf(k, c)] is true. *)
Theorem exact_match_is_prefix_match :
  forall (fold : bool) (k c : StringBlock.t),
    StringBlock.valid k -> StringBlock.valid c ->
    StringBlock.Compare k c (transform fold) = Ok 0%Z ->
    StringBlock.IsPrefixOf k c (transform fold) = Ok true.
Proof.
  intros fold k c Vk Vc H.
  rewrite Compare_spec in H by assumption. injection H as H.
  apply compare_bytes_zero in H.
  rewrite IsPrefixOf_spec by assumption. f_equal.
  apply prefixb_spec. exists []. rewrite app_nil_r. symmetry. exact H.
Qed.

Lemma exact_match_is_prefix_match_witness :
  StringBlock.IsPrefixOf (StringBlock.of_string (bytes_of_string "aB"))
                         (StringBlock.of_string (bytes_of_string "Ab"))
                         (transform true) = Ok true.
Proof.
  apply (@exact_match_is_prefix_match true
           (StringBlock.of_string (bytes_of_string "aB"))
           (StringBlock.of_string (bytes_of_string "Ab"))
           (conj (le_0_n 2) (le_n 2)) (conj (le_0_n 2) (le_n 2))).
  reflexivity.
Defined.

(** ** FindIf and FindRowBegin *)



(** [FindRowBegin(pos, lb)] returns the start of the row around [pos]
    within the window: the offset after the last row separator in
    [[lb, pos)], or [lb] when there is none.  It puts that offset at the
    front of the column starts, followed by the offset after each column
    separator between it and [pos]. *)
Theorem FindRowBegin_row_start : forall config pos lb cp,
    lb <= pos ->
    pos <= length (file config) ->
    exists first,
      FindRowBegin config pos lb cp
      = Ok (first,
            first :: colstarts (col_sep config) first
                               (slice (file config) first pos) ++ cp)
      /\ lb <= first /\ first <= pos
      /\ rs_free config (slice (file config) first pos)
      /\ (first = lb
          \/ exists p, first = S p
                       /\ nth_error (file config) p = Some (row_sep config)).
Proof.
  intros config pos lb cp Hlb Hpos.
  set (L := firstn lb (file config)).
  assert (HL : length L = lb) by (unfold L; rewrite length_firstn; lia).
  destruct (split_last config (slice (file config) lb pos))
    as (M & r & HS & HM & Hr).
  set (Z := skipn pos (file config)).
  assert (Hf : file config = (L ++ M) ++ r ++ Z).
  { assert (Hsk : skipn lb (file config) = slice (file config) lb pos ++ Z).
    { unfold slice, Z.
      rewrite <- (firstn_skipn (pos - lb) (skipn lb (file config))) at 1.
      f_equal. rewrite skipn_skipn. f_equal. lia. }
    rewrite <- (firstn_skipn lb (file config)) at 1. fold L.
    rewrite Hsk, HS, <- !app_assoc. reflexivity. }
  assert (HlenS : length M + length r = pos - lb).
  { rewrite <- length_app, <- HS. unfold slice.
    rewrite length_firstn, length_skipn. lia. }
  assert (HX : length (L ++ M) = lb + length M)
    by (rewrite length_app; lia).
  assert (Hp : pos = length (L ++ M) + length r) by lia.
  assert (Hslice : slice (file config) (length (L ++ M)) pos = r).
  { rewrite Hf at 1. rewrite Hp. apply slice_app_mid. }
  exists (length (L ++ M)). rewrite Hslice.
  split; [|split; [lia | split; [lia | split; [exact Hr|]]]].
  - rewrite Hp at 1.
    apply (@FindRowBegin_spec config r (L ++ M) Z lb cp Hf Hr); [lia|].
    destruct HM as [-> | [M' ->]]; [left | right].
    + rewrite app_nil_r. symmetry. exact HL.
    + exists (L ++ M'). rewrite app_assoc. reflexivity.
  - destruct HM as [-> | [M' HM']]; [left | right].
    + rewrite app_nil_r. exact HL.
    + exists (length (L ++ M')). split.
      * rewrite HM', app_assoc, length_app. simpl. lia.
      * rewrite Hf, HM'. rewrite <- !app_assoc. rewrite app_assoc.
        simpl. apply nth_error_app_mid.
Qed.

Lemma FindRowBegin_row_start_witness :
  exists first,
    FindRowBegin second_column_config 12 0 []
    = Ok (first,
          first :: colstarts (col_sep second_column_config) first
                             (slice (file second_column_config) first 12)
                ++ [])
    /\ first = 8.
Proof.
  destruct (@FindRowBegin_row_start second_column_config 12 0 [])
    as (first & E & _).
  - lia.
  - vm_compute. lia.
  - exists first. split; [exact E|].
    vm_compute in E.
    destruct first as [|[|[|[|[|[|[|[|[|f]]]]]]]]];
      try reflexivity; vm_compute in E; discriminate E.
Defined.

(** ** Searching a buffer that need not be sorted *)

Lemma search_loop_boundary : forall config key fuel A M B,
    file config = A ++ M ++ B ->
    terminated config A ->
    terminated config (A ++ M) \/ B = [] ->
    length M < fuel ->
    1 <= col config ->
    (exists lb ub,
        search_loop config fuel (StringBlock.of_string key)
                    (length A) (length A + length M) = Ok (lb, ub)
        /\ ((exists A' B', file config = A' ++ B' /\ terminated config A'
                           /\ lb = length A')
            \/ lb = length (file config) + 1))
    \/ (exists r,
           search_loop config fuel (StringBlock.of_string key)
                       (length A) (length A + length M)
           = Throw (NotEnoughColumns r)
           /\ In r (rows (row_sep config) (file config))
           /\ enough_columns config r = false).
Proof.
  intros config key fuel. induction fuel as [|k IH];
    intros A M B Hf HA HAM Hfuel Hcol; [lia|].
  destruct M as [|m M'] eqn:EM.
  - left. exists (length A), (length A + 0). split.
    + apply search_loop_done. simpl. lia.
    + left. exists A, B. repeat split; assumption.
  - rewrite <- EM in *. assert (HM : M <> []) by (rewrite EM; discriminate).
    clear EM m M'.
    destruct (@probe_step config key A M B Hf HA HAM HM Hcol)
      as (M1 & row & M2 & HMeq & HM1 & Hrow & HM2 & Hstep).
    rewrite Hstep. clear Hstep.
    destruct (enough_columns config row) eqn:Een.
    2:{ right. exists row. split; [reflexivity | split; [|exact Een]].
        destruct (@rows_probe config M1 row M2 B HM1 Hrow HM2)
          as (rest & _ & Hrows).
        rewrite Hf, HMeq, rows_app by exact HA.
        rewrite <- !app_assoc. rewrite Hrows.
        apply in_or_app. right. apply in_or_app. right. left. reflexivity. }
    destruct (compare_bytes (transform (fold config)) key
                            (key_column config row) >=? 0)%Z.
    + apply (IH A M1 (row ++ M2 ++ B)).
      * rewrite Hf, HMeq, <- !app_assoc. reflexivity.
      * exact HA.
      * left. apply terminated_app; assumption.
      * rewrite HMeq, !length_app in Hfuel.
        destruct HM2 as [(-> & _ & Hne) | [M2' ->]].
        -- destruct row; [congruence|]. simpl in Hfuel. lia.
        -- simpl in Hfuel. lia.
      * exact Hcol.
    + destruct HM2 as [(-> & -> & Hne) | [M2' ->]].
      * left. eexists. eexists. split.
        -- destruct k as [|k']; [destruct M; simpl in *; [congruence|lia]|].
           apply search_loop_done. rewrite HMeq, !length_app. simpl. lia.
        -- right. rewrite Hf, HMeq, !length_app. simpl. lia.
      * specialize (IH (A ++ M1 ++ row ++ [row_sep config]) M2' B).
        rewrite !length_app in IH. cbn [length] in IH.
        replace (length A + (length M1 + (length row + 1)))
          with (length A + length M1 + length row + 1) in IH by lia.
        replace (length A + length M1 + length row + 1 + length M2')
          with (length A + length M) in IH
          by (rewrite HMeq, !length_app; simpl; lia).
        apply IH.
        -- rewrite Hf, HMeq, <- !app_assoc. reflexivity.
        -- apply terminated_app; [exact HA|].
           apply terminated_app; [exact HM1 | apply terminated_row].
        -- destruct HAM as [HAM | HB]; [left | right; exact HB].
           rewrite HMeq in HAM. rewrite <- !app_assoc. simpl. exact HAM.
        -- rewrite HMeq, !length_app in Hfuel. simpl in Hfuel. lia.
        -- exact Hcol.
Qed.

Lemma scan_rows_prefix : forall config key rws os,
    exists l rest,
      rws = l ++ rest
      /\ fst (scan_rows config key rws os) = os ++ emit config l
      /\ Forall (fun r => enough_columns config r = true
                          /\ is_matchb config key (key_column config r)
                             = true) l
      /\ (snd (scan_rows config key rws os) = Ok tt
          \/ exists r,
              In r rest
              /\ snd (scan_rows config key rws os)
                 = Throw (NotEnoughColumns r)
              /\ enough_columns config r = false).
Proof.
  intros config key rws. induction rws as [|r rws IH]; intros os.
  - exists [], []. simpl. rewrite app_nil_r.
    split; [|split; [|split; [constructor | left]]]; reflexivity.
  - cbn [scan_rows]. destruct (enough_columns config r) eqn:Een.
    + destruct (is_matchb config key (key_column config r)) eqn:Em.
      * destruct (IH (os ++ r ++ [row_sep config]))
          as (l & rest & -> & Hfst & Hall & Hsnd).
        exists (r :: l), rest. split; [reflexivity|].
        split; [|split; [constructor; [split; assumption | exact Hall]
                        | exact Hsnd]].
        rewrite Hfst. unfold emit. cbn [flat_map].
        rewrite <- !app_assoc. reflexivity.
      * exists [], (r :: rws). simpl. rewrite app_nil_r.
        split; [|split; [|split; [constructor | left]]]; reflexivity.
    + exists [], (r :: rws). simpl. rewrite app_nil_r.
      split; [reflexivity | split; [reflexivity | split; [constructor|]]].
      right. exists r.
      split; [left; reflexivity | split; [reflexivity | exact Een]].
Qed.

(** On any buffer, sorted or not, a search writes only rows of the buffer
    that match the key, and they are consecutive rows in file order.  It
    ends normally or with the not-enough-columns error for a row of the
    buffer that has fewer columns than the key-column index. *)
Theorem Run_writes_matching_rows : forall config key,
    check config = false ->
    1 <= col config ->
    exists pre l post,
      rows (row_sep config) (file config) = pre ++ l ++ post
      /\ fst (Run config key) = emit config l
      /\ Forall (fun r => enough_columns config r = true
                          /\ is_matchb config key (key_column config r)
                             = true) l
      /\ (snd (Run config key) = Ok tt
          \/ exists r,
              In r (rows (row_sep config) (file config))
              /\ snd (Run config key) = Throw (NotEnoughColumns r)
              /\ enough_columns config r = false).
Proof.
  intros config key Hck Hcol. unfold Run, first, last. rewrite Hck.
  destruct (file config) as [|c0 buf0] eqn:Ef.
  - exists [], [], []. simpl.
    split; [|split; [|split; [constructor | left]]]; reflexivity.
  - rewrite <- Ef.
    replace (0 =? length (file config)) with false
      by (symmetry; apply Nat.eqb_neq; rewrite Ef; simpl; lia).
    destruct (@search_loop_boundary config key (S (length (file config) - 0))
                [] (file config) [])
      as [(lb & ub & E & Hlb) | (r & E & Hin & Hr)];
      try (rewrite ?app_nil_r; reflexivity); try lia;
      try (left; reflexivity); try (right; reflexivity).
    + cbn [length Nat.add] in E. rewrite E.
      destruct Hlb as [(A & B & Hf & HA & ->) | ->].
      * rewrite (@scan_loop_spec config key _ A B)
          by (try assumption; rewrite Hf, length_app; lia).
        destruct (scan_rows_prefix config key (rows (row_sep config) B) [])
          as (l & rest & HB & Hfst & Hall & Hsnd).
        exists (rows (row_sep config) A), l, rest.
        split; [|split; [exact Hfst | split; [exact Hall|]]].
        -- rewrite Hf at 1. rewrite rows_app by exact HA. rewrite HB.
           reflexivity.
        -- destruct Hsnd as [H | (r & Hin & H & Hr)]; [left; exact H | right].
           exists r. repeat split; try assumption.
           rewrite Hf at 1. rewrite rows_app by exact HA. rewrite HB.
           apply in_or_app. right. apply in_or_app. right. exact Hin.
      * rewrite scan_loop_done by lia.
        exists (rows (row_sep config) (file config)), [], [].
        rewrite !app_nil_r.
        split; [|split; [|split; [constructor | left]]]; reflexivity.
    + cbn [length Nat.add] in E. rewrite E.
      exists [], [], (rows (row_sep config) (file config)).
      split; [reflexivity | split; [reflexivity | split; [constructor|]]].
      right. exists r.
      split; [exact Hin | split; [reflexivity | exact Hr]].
Qed.

Lemma Run_writes_matching_rows_witness :
  exists pre l post,
    rows (row_sep (default_config unordered_buffer))
         (file (default_config unordered_buffer)) = pre ++ l ++ post
    /\ fst (Run (default_config unordered_buffer) (bytes_of_string "a"))
       = emit (default_config unordered_buffer) l.
Proof.
  destruct (@Run_writes_matching_rows (default_config unordered_buffer)
              (bytes_of_string "a") eq_refl (le_n 1))
    as (pre & l & post & H1 & H2 & _).
  exists pre, l, post. split; assumption.
Defined.

(** ** The final row separator and the empty key *)

(** A buffer whose final row lacks the row separator has the same rows as
    the buffer with the separator added. *)
Lemma rows_add_sep : forall config buf,
    terminatedb config buf = false ->
    rows (row_sep config) (buf ++ [row_sep config])
    = rows (row_sep config) buf.
Proof.
  intros config buf HT.
  destruct (split_last config buf) as (M & r & -> & HM & Hr).
  assert (Hne : r <> []).
  { intros ->. rewrite app_nil_r in HT.
    apply terminatedb_spec in HM. congruence. }
  rewrite <- app_assoc.
  rewrite (@rows_app config M (r ++ [row_sep config]) HM).
  rewrite (@rows_app config M r HM).
  rewrite (@rows_row_sep config r [] Hr), (@rows_row_end config r Hr Hne).
  reflexivity.
Qed.

Lemma emit_rows_file : forall config buf,
    emit config (rows (row_sep config) buf)
    = if terminatedb config buf then buf else buf ++ [row_sep config].
Proof.
  intros config buf. destruct (terminatedb config buf) eqn:HT.
  - apply emit_rows. apply terminatedb_spec. exact HT.
  - rewrite <- (rows_add_sep config buf HT).
    apply emit_rows. apply terminated_row.
Qed.

Lemma search_loop_empty_key : forall config fuel A M B,
    file config = A ++ M ++ B ->
    terminated config A ->
    terminated config (A ++ M) \/ B = [] ->
    length M < fuel ->
    1 <= col config ->
    all_enough_columns config = true ->
    exists ub,
      search_loop config fuel (StringBlock.of_string [])
                  (length A) (length A + length M) = Ok (length A, ub).
Proof.
  intros config fuel. induction fuel as [|k IH];
    intros A M B Hf HA HAM Hfuel Hcol Hen; [lia|].
  destruct M as [|m M'] eqn:EM.
  - eexists. apply search_loop_done. simpl. lia.
  - rewrite <- EM in *. assert (HM : M <> []) by (rewrite EM; discriminate).
    clear EM m M'.
    destruct (@probe_step config [] A M B Hf HA HAM HM Hcol)
      as (M1 & row & M2 & HMeq & HM1 & Hrow & HM2 & Hstep).
    rewrite Hstep. clear Hstep.
    destruct (@rows_probe config M1 row M2 B HM1 Hrow HM2)
      as (rest & _ & Hrows).
    assert (Een : enough_columns config row = true).
    { pose proof Hen as H. unfold all_enough_columns in H.
      rewrite Hf, HMeq, rows_app in H by exact HA.
      rewrite <- !app_assoc in H. rewrite Hrows in H.
      rewrite !forallb_app in H. cbn [forallb] in H.
      repeat (apply andb_true_iff in H; destruct H as [? H]).
      assumption. }
    rewrite Een, compare_bytes_nil_l.
    replace (Z.of_nat (length (key_column config row)) >=? 0)%Z with true
      by (symmetry; apply Z.geb_le; lia).
    apply (IH A M1 (row ++ M2 ++ B)); try assumption.
    + rewrite Hf, HMeq, <- !app_assoc. reflexivity.
    + left. apply terminated_app; assumption.
    + rewrite HMeq, !length_app in Hfuel.
      destruct HM2 as [(-> & _ & Hne) | [M2' ->]].
      * destruct row; [congruence|]. simpl in Hfuel. lia.
      * simpl in Hfuel. lia.
Qed.

Lemma scan_rows_all_match : forall config key rws os,
    forallb (enough_columns config) rws = true ->
    (forall column, is_matchb config key column = true) ->
    scan_rows config key rws os = (os ++ emit config rws, Ok tt).
Proof.
  intros config key rws. induction rws as [|r rws IH]; intros os Hen Hm.
  - simpl. rewrite app_nil_r. reflexivity.
  - cbn [forallb] in Hen. apply andb_true_iff in Hen. destruct Hen as [Hr Hen].
    cbn [scan_rows]. rewrite Hr, Hm, IH by assumption.
    unfold emit. cbn [flat_map]. rewrite <- !app_assoc. reflexivity.
Qed.

(** In prefix mode the empty key matches every row: whether or not the
    buffer is sorted, when every row has enough columns the search writes
    the whole buffer, adding the row separator after a final row that
    lacks it. *)
Theorem Run_empty_key_writes_buffer : forall config,
    check config = false ->
    exact_match config = false ->
    1 <= col config ->
    all_enough_columns config = true ->
    Run config []
    = (if terminatedb config (file config) then file config
       else file config ++ [row_sep config],
       Ok tt).
Proof.
  intros config Hck Hex Hcol Hen. unfold Run, first, last. rewrite Hck.
  destruct (file config) as [|c0 buf0] eqn:Ef.
  - reflexivity.
  - rewrite <- Ef.
    replace (0 =? length (file config)) with false
      by (symmetry; apply Nat.eqb_neq; rewrite Ef; simpl; lia).
    destruct (@search_loop_empty_key config (S (length (file config) - 0))
                [] (file config) [])
      as (ub & E); try assumption;
      try (rewrite ?app_nil_r; reflexivity); try lia;
      try (left; reflexivity); try (right; reflexivity).
    cbn [length Nat.add] in E. rewrite E.
    rewrite (@scan_loop_spec config [] _ [] (file config))
      by (try assumption; try reflexivity; simpl; lia).
    rewrite scan_rows_all_match.
    + rewrite emit_rows_file. reflexivity.
    + exact Hen.
    + intros column. unfold is_matchb. rewrite Hex. reflexivity.
Qed.

Lemma Run_empty_key_writes_buffer_witness :
  Run (default_config unordered_buffer) [] = (unordered_buffer, Ok tt)
  /\ Run unterminated_config []
     = (bytes_of_string "a" ++ [LF], Ok tt).
Proof.
  split.
  - rewrite (@Run_empty_key_writes_buffer (default_config unordered_buffer)
               eq_refl eq_refl (le_n 1) eq_refl).
    reflexivity.
  - rewrite (@Run_empty_key_writes_buffer unterminated_config
               eq_refl eq_refl (le_n 1) eq_refl).
    reflexivity.
Defined.

Lemma key_leb_with_file : forall config buf a b,
    key_leb (with_file config buf) a b = key_leb config a b.
Proof. intros. rewrite !key_leb_spec. reflexivity. Qed.

(** On a sorted buffer whose final row lacks the row separator, a search
    gives the same output and result as on the buffer with the separator
    added. *)
Theorem Run_final_separator_irrelevant : forall config key,
    check config = false ->
    1 <= col config ->
    all_enough_columns config = true ->
    sorted_by_key config = true ->
    terminatedb config (file config) = false ->
    Run (with_file config (file config ++ [row_sep config])) key
    = Run config key.
Proof.
  intros config key Hck Hcol Hen Hs HT.
  assert (Hrows : rows (row_sep config) (file config ++ [row_sep config])
                  = rows (row_sep config) (file config))
    by (apply rows_add_sep; exact HT).
  rewrite (@Run_search_sorted config key) by assumption.
  rewrite Run_search_sorted.
  - unfold emit, is_matchb, exact_matchb, prefix_matchb, key_column,
      with_file.
    cbn [row_sep col_sep file exact_match fold col].
    rewrite Hrows. reflexivity.
  - exact Hck.
  - exact Hcol.
  - unfold all_enough_columns. cbn [with_file row_sep file].
    rewrite Hrows. exact Hen.
  - unfold sorted_by_key. cbn [with_file row_sep file].
    rewrite Hrows.
    rewrite (@sortedb_ext _ (key_leb (with_file config
                                                (file config
                                                 ++ [row_sep config])))
               (key_leb config))
      by (intros; apply key_leb_with_file).
    exact Hs.
Qed.

Lemma Run_final_separator_irrelevant_witness :
  Run (with_file unterminated_config
                 (file unterminated_config ++ [row_sep unterminated_config]))
      (bytes_of_string "a")
  = Run unterminated_config (bytes_of_string "a").
Proof.
  apply (@Run_final_separator_irrelevant unterminated_config
           (bytes_of_string "a") eq_refl (le_n 1) eq_refl eq_refl eq_refl).
Defined.

(** ** The number of probes of the binary search *)

Lemma probe_step_halving : forall config key A M B,
    file config = A ++ M ++ B ->
    terminated config A ->
    terminated config (A ++ M) \/ B = [] ->
    M <> [] ->
    1 <= col config ->
    exists M1 row M2,
      M = M1 ++ row ++ M2
      /\ terminated config M1
      /\ rs_free config row
      /\ ((M2 = [] /\ B = [] /\ row <> [])
          \/ exists M2', M2 = row_sep config :: M2')
      /\ length M1 <= length M / 2
      /\ length M2 <= S (length M / 2)
      /\ forall k,
          search_loop config (S k) (StringBlock.of_string key)
                      (length A) (length A + length M)
          = if enough_columns config row then
              if (compare_bytes (transform (fold config)) key
                                (key_column config row) >=? 0)%Z
              then search_loop config k (StringBlock.of_string key)
                               (length A) (length A + length M1)
              else search_loop config k (StringBlock.of_string key)
                               (length A + length M1 + length row + 1)
                               (length A + length M)
            else Throw (NotEnoughColumns row).
Proof.
  intros config key A M B Hf HA HAM HM Hcol.
  assert (HlenM : 0 < length M) by (destruct M; simpl; [congruence | lia]).
  assert (Hk : (length A + length M - length A) / 2 < length M).
  { replace (length A + length M - length A) with (length M) by lia.
    apply Nat.div_lt; lia. }
  destruct (@row_around config M _ Hk)
    as (M1 & r1 & r2 & M2 & HMeq & Hpos & HM1 & Hrow & HM2).
  exists M1, (r1 ++ r2), M2.
  assert (HM2' : (M2 = [] /\ B = [] /\ r1 ++ r2 <> [])
                 \/ exists M2', M2 = row_sep config :: M2').
  { destruct HM2 as [[-> Hr2] | HM2]; [left | right; exact HM2].
    repeat split.
    - destruct HAM as [HAM | HB]; [|exact HB]. exfalso.
      rewrite HMeq, app_nil_r in HAM.
      rewrite !app_assoc in HAM. apply terminated_free_end in HAM.
      + congruence.
      + apply Forall_app in Hrow. tauto.
    - destruct r1; destruct r2; simpl; congruence. }
  assert (Hdiv : length M1 + length r1 = length M / 2)
    by (rewrite Hpos; f_equal; lia).
  assert (Hmod : length M = 2 * (length M / 2) + length M mod 2)
    by (apply Nat.div_mod_eq).
  assert (Hlt : length M mod 2 < 2) by (apply Nat.mod_upper_bound; lia).
  assert (HlenMeq : length M
                    = length M1 + (length r1 + length r2) + length M2)
    by (rewrite HMeq at 1; rewrite !length_app; lia).
  split; [exact HMeq|].
  split; [exact HM1|].
  split; [exact Hrow|].
  split; [exact HM2'|].
  split; [lia|].
  split; [lia|].
  intros k.
  assert (Hfile : file config = (A ++ M1) ++ (r1 ++ r2) ++ (M2 ++ B)).
  { rewrite Hf, HMeq, <- !app_assoc. reflexivity. }
  destruct (@resolve_around config (A ++ M1) r1 r2 (M2 ++ B)
              (length A) (length A + length M) Hfile Hrow)
    as (cp & E1 & E2).
  { rewrite length_app. lia. }
  { destruct HM1 as [-> | [M1' ->]].
    - left. rewrite app_nil_r. reflexivity.
    - right. exists (A ++ M1'). rewrite app_assoc. reflexivity. }
  { rewrite HMeq, !length_app. lia. }
  { destruct HM2' as [(-> & -> & _) | [M2' ->]].
    - left. rewrite HMeq, !length_app. simpl. lia.
    - right. eexists. reflexivity. }
  cbn [search_loop].
  replace (length A <? length A + length M) with true
    by (symmetry; apply Nat.ltb_lt; lia).
  rewrite length_app in E1, E2.
  replace (length A + (length A + length M - length A) / 2)
    with (length A + length M1 + length r1) by lia.
  rewrite E1. cbn [bind]. rewrite E2. cbn [bind].
  pose proof (@GetColumn_short config (A ++ M1) (r1 ++ r2) (M2 ++ B) Hfile)
    as Hshort.
  pose proof (@GetColumn_ok config (A ++ M1) (r1 ++ r2) (M2 ++ B) Hfile Hcol)
    as Hok.
  rewrite length_app in Hshort, Hok.
  destruct (enough_columns config (r1 ++ r2)).
  - destruct (Hok eq_refl) as (a & e & _ & _ & EG & Vb & Hb).
    rewrite EG. cbn [bind]. unfold StringBlock.make.
    replace (length A + length M1 + length (r1 ++ r2)
             <? length A + length M1) with false
      by (symmetry; apply Nat.ltb_ge; lia).
    cbn [bind].
    rewrite Compare_config_spec by (try apply of_string_valid; assumption).
    cbn [bind]. rewrite of_string_bytes, Hb. reflexivity.
  - rewrite (Hshort eq_refl). reflexivity.
Qed.

Lemma search_loop_fuel : forall config key k A M B fuel,
    file config = A ++ M ++ B ->
    terminated config A ->
    terminated config (A ++ M) \/ B = [] ->
    1 <= col config ->
    length M < 2 ^ k ->
    S k <= fuel ->
    search_loop config fuel (StringBlock.of_string key)
                (length A) (length A + length M)
    = search_loop config (S k) (StringBlock.of_string key)
                  (length A) (length A + length M).
Proof.
  intros config key k. induction k as [|k IH];
    intros A M B fuel Hf HA HAM Hcol Hsize Hfuel;
    (destruct fuel as [|f]; [lia|]).
  - destruct M; [|simpl in Hsize; lia].
    rewrite !search_loop_done by (simpl; lia). reflexivity.
  - destruct M as [|m M'] eqn:EM.
    + rewrite !search_loop_done by (simpl; lia). reflexivity.
    + rewrite <- EM in *. assert (HM : M <> []) by (rewrite EM; discriminate).
      clear EM m M'.
      destruct (@probe_step_halving config key A M B Hf HA HAM HM Hcol)
        as (M1 & row & M2 & HMeq & HM1 & Hrow & HM2 & Hs1 & Hs2 & Hstep).
      rewrite !Hstep. clear Hstep.
      assert (Hhalf : length M / 2 < 2 ^ k).
      { apply Nat.Div0.div_lt_upper_bound.
        rewrite Nat.pow_succ_r' in Hsize. exact Hsize. }
      destruct (enough_columns config row); [|reflexivity].
      destruct (compare_bytes (transform (fold config)) key
                              (key_column config row) >=? 0)%Z.
      * apply (IH A M1 (row ++ M2 ++ B)); try assumption; try lia.
        -- rewrite Hf, HMeq, <- !app_assoc. reflexivity.
        -- left. apply terminated_app; assumption.
      * destruct HM2 as [(-> & -> & Hne) | [M2' ->]].
        -- destruct f as [|f']; [lia|].
           rewrite (@search_loop_done config f')
             by (rewrite HMeq, !length_app; simpl; lia).
           rewrite (@search_loop_done config k)
             by (rewrite HMeq, !length_app; simpl; lia).
           reflexivity.
        -- specialize (IH (A ++ M1 ++ row ++ [row_sep config]) M2' B f).
           rewrite !length_app in IH. cbn [length] in IH.
           replace (length A + (length M1 + (length row + 1)))
             with (length A + length M1 + length row + 1) in IH by lia.
           replace (length A + length M1 + length row + 1 + length M2')
             with (length A + length M) in IH
             by (rewrite HMeq, !length_app; simpl; lia).
           apply IH; try assumption; try lia.
           ++ rewrite Hf, HMeq, <- !app_assoc. reflexivity.
           ++ apply terminated_app; [exact HA|].
              apply terminated_app; [exact HM1 | apply terminated_row].
           ++ destruct HAM as [HAM | HB]; [left | right; exact HB].
              rewrite HMeq in HAM. rewrite <- !app_assoc. simpl. exact HAM.
           ++ cbn [length] in Hs2. lia.
Qed.

(** The binary search needs at most [log2 n + 1] probes on a buffer of [n]
    bytes: run with room for that many iterations and the final test, the
    loop gives the result it gives in [Run], and that result is never the
    exhaustion of the iterations. *)
Theorem search_loop_logarithmic : forall config key,
    1 <= col config ->
    search_loop config (Nat.log2 (length (file config)) + 2)
                (StringBlock.of_string key) (first config) (last config)
    = search_loop config (S (last config - first config))
                  (StringBlock.of_string key) (first config) (last config)
    /\ search_loop config (Nat.log2 (length (file config)) + 2)
                   (StringBlock.of_string key) (first config) (last config)
       <> OutOfFuel.
Proof.
  intros config key Hcol. unfold first, last.
  assert (Hsize : length (file config)
                  < 2 ^ (S (Nat.log2 (length (file config))))).
  { destruct (length (file config)) as [|n] eqn:En.
    - simpl. lia.
    - apply Nat.log2_spec. lia. }
  assert (Hf : file config = [] ++ file config ++ [])
    by (rewrite app_nil_r; reflexivity).
  assert (E1 : search_loop config (Nat.log2 (length (file config)) + 2)
                           (StringBlock.of_string key) 0
                           (length (file config))
               = search_loop config (S (S (Nat.log2 (length (file config)))))
                             (StringBlock.of_string key) 0
                             (length (file config)))
    by (f_equal; lia).
  assert (E2 : search_loop config (S (length (file config) - 0))
                           (StringBlock.of_string key) 0
                           (length (file config))
               = search_loop config (S (S (Nat.log2 (length (file config)))))
                             (StringBlock.of_string key) 0
                             (length (file config))).
  { destruct (Nat.eq_dec (length (file config)) 0) as [Hz|Hnz].
    - rewrite !search_loop_done by lia. reflexivity.
    - apply (@search_loop_fuel config key _ [] (file config) []);
        try assumption.
      + left. reflexivity.
      + right. reflexivity.
      + pose proof (Nat.log2_lt_lin (length (file config))). lia. }
  rewrite E1, E2. split; [reflexivity|].
  rewrite <- E2.
  destruct (@search_loop_safe config key (S (length (file config) - 0))
              [] (file config) [] Hf)
    as [(lb & ub & E & _) | (r & E)];
    try (left; reflexivity); try (right; reflexivity); try lia;
    try assumption;
    cbn [length Nat.add] in E; rewrite E; discriminate.
Qed.

Lemma search_loop_logarithmic_witness :
  search_loop (default_config fruit) 7
              (StringBlock.of_string (bytes_of_string "banana"))
              0 (length fruit)
  = Ok (16, 16).
Proof.
  destruct (@search_loop_logarithmic (default_config fruit)
              (bytes_of_string "banana") (le_n 1)) as [H _].
  etransitivity; [exact H | reflexivity].
Defined.

(** ** What the check reports *)

Lemma check_rows_throw : forall config rws prev e,
    check_rows config prev rws = Throw e ->
    exists pre r post,
      rws = pre ++ r :: post
      /\ forallb (enough_columns config) pre = true
      /\ sortedb (key_leb config) (prev :: map (key_column config) pre) = true
      /\ ((e = UnorderedInput r
           /\ enough_columns config r = true
           /\ key_leb config
                      (List.last (prev :: map (key_column config) pre) [])
                      (key_column config r) = false)
          \/ (e = NotEnoughColumns r /\ enough_columns config r = false)).
Proof.
  intros config rws. induction rws as [|r rest IH]; intros prev e H.
  - discriminate H.
  - cbn [check_rows] in H. destruct (enough_columns config r) eqn:Een.
    + destruct (key_leb config prev (key_column config r)) eqn:Ek.
      * destruct (IH _ _ H) as (pre & r' & post & -> & Hen & Hs & Hcase).
        exists (r :: pre), r', post.
        split; [reflexivity|]. split; [cbn [forallb]; rewrite Een; exact Hen|].
        split.
        -- cbn [map].
           change (sortedb (key_leb config)
                           (prev :: key_column config r
                                 :: map (key_column config) pre))
             with (key_leb config prev (key_column config r)
                   && sortedb (key_leb config)
                              (key_column config r
                                 :: map (key_column config) pre)).
           rewrite Ek, Hs. reflexivity.
        -- exact Hcase.
      * injection H as <-. exists [], r, rest.
        split; [reflexivity|]. split; [reflexivity|]. split; [reflexivity|].
        left. split; [reflexivity|]. split; [exact Een | exact Ek].
    + injection H as <-. exists [], r, rest.
      split; [reflexivity|]. split; [reflexivity|]. split; [reflexivity|].
      right. split; [reflexivity | exact Een].
Qed.

(** When check mode fails it reports the first offending row: every row
    before it has enough columns and those rows are in order; the reported
    row either has too few columns, or has enough and its key column sorts
    before the key column of the row just before it.  Nothing is written
    to the output. *)
Theorem check_reports_first_violation : forall config key e,
    check config = true ->
    1 <= col config ->
    snd (Run config key) = Throw e ->
    fst (Run config key) = []
    /\ exists pre r post,
        rows (row_sep config) (file config) = pre ++ r :: post
        /\ forallb (enough_columns config) pre = true
        /\ sortedb (lex_leb (transform (fold config)))
                   (map (key_column config) pre) = true
        /\ ((e = UnorderedInput r
             /\ enough_columns config r = true
             /\ exists pre0 p,
                 pre = pre0 ++ [p]
                 /\ lex_leb (transform (fold config))
                            (key_column config p) (key_column config r)
                    = false)
            \/ (e = NotEnoughColumns r /\ enough_columns config r = false)).
Proof.
  intros config key e Hck Hcol H.
  rewrite Run_check in * by assumption. cbn [fst snd] in *.
  split; [reflexivity|].
  destruct (check_rows_throw _ _ _ H)
    as (pre & r & post & Hrows & Hen & Hs & Hcase).
  exists pre, r, post.
  split; [exact Hrows|]. split; [exact Hen|]. split.
  - rewrite sortedb_nil_first in Hs.
    rewrite <- (@sortedb_ext _ (key_leb config)
                  (lex_leb (transform (fold config))))
      by apply key_leb_lex_leb.
    exact Hs.
  - destruct Hcase as [(He & Hr & Hk) | Hcase]; [left | right; exact Hcase].
    split; [exact He|]. split; [exact Hr|].
    clear Hrows Hen Hs.
    destruct pre as [|p0 pre' _] using rev_ind.
    + simpl in Hk. rewrite key_leb_lex_leb in Hk. discriminate Hk.
    + exists pre', p0. split; [reflexivity|].
      rewrite map_app in Hk. cbn [map] in Hk.
      change ([] :: map (key_column config) pre' ++ [key_column config p0])
        with (([] :: map (key_column config) pre')
                ++ [key_column config p0]) in Hk.
      rewrite last_last, key_leb_lex_leb in Hk. exact Hk.
Qed.

Lemma check_reports_first_violation_witness :
  exists pre r post,
    rows (row_sep unordered_config) (file unordered_config)
    = pre ++ r :: post
    /\ r = bytes_of_string "a".
Proof.
  destruct (@check_reports_first_violation unordered_config []
              (UnorderedInput (bytes_of_string "a"))
              eq_refl (le_n 1) eq_refl)
    as (_ & pre & r & post & Hrows & _ & _ & Hcase).
  exists pre, r, post. split; [exact Hrows|].
  destruct Hcase as [(He & _) | (He & _)].
  - injection He as He. symmetry. exact He.
  - discriminate He.
Defined.

(** ** The command line *)

Lemma ExtractArgument_cases :
  forall (T : Type) (parse : list byte -> cli T) cur rest,
    (2 < length cur
     /\ ExtractArgument (cur :: rest) parse
        = cli_bind (parse (skipn 2 cur)) (fun v => Done (v, cur :: rest)))
    \/ (length cur <= 2
        /\ exists c t more,
            rest = (c :: t) :: more
            /\ ExtractArgument (cur :: rest) parse
               = cli_bind (parse (c :: t)) (fun v => Done (v, rest)))
    \/ (length cur <= 2
        /\ exists a,
            ExtractArgument (cur :: rest) parse = Raise (ArgumentNotFound a)
            /\ ((rest = [] /\ a = cur)
                \/ exists more, rest = [] :: more /\ a = [])).
Proof.
  intros T parse cur rest. unfold ExtractArgument.
  destruct (Nat.ltb_spec 2 (length cur)) as [H|H].
  - left. split; [exact H | reflexivity].
  - right. destruct rest as [|[|c t] more].
    + right. split; [exact H|]. exists cur. split; [reflexivity|].
      left. split; reflexivity.
    + right. split; [exact H|]. exists []. split; [reflexivity|].
      right. exists more. split; reflexivity.
    + left. split; [exact H|]. exists c, t, more. split; reflexivity.
Qed.

(** [ExtractArgument] with [ExtractChar], as for [-t]: the separator is the
    third character of the option itself when the option is longer than two
    characters, and otherwise the first character of the next argument,
    which is then consumed; when there is no next argument or it is empty,
    the argument-not-found error is thrown.  [front()] is never applied to
    an empty string. *)
Theorem ExtractArgument_char : forall cur rest,
    (2 < length cur
     /\ ExtractArgument (cur :: rest) ExtractChar
        = Done (nth 2 cur 0%Z, cur :: rest))
    \/ (length cur <= 2
        /\ exists c t more,
            rest = (c :: t) :: more
            /\ ExtractArgument (cur :: rest) ExtractChar = Done (c, rest))
    \/ (length cur <= 2
        /\ exists a,
            ExtractArgument (cur :: rest) ExtractChar
            = Raise (ArgumentNotFound a)
            /\ ((rest = [] /\ a = cur)
                \/ exists more, rest = [] :: more /\ a = [])).
Proof.
  intros cur rest.
  destruct (ExtractArgument_cases ExtractChar cur rest)
    as [[H E] | [(H & c & t & more & Hr & E) | H]].
  - left. split; [exact H|]. rewrite E.
    destruct cur as [|a [|b [|c t]]]; simpl in H; try lia. reflexivity.
  - right. left. split; [exact H|]. exists c, t, more.
    split; [exact Hr|]. rewrite E. reflexivity.
  - right. right. exact H.
Qed.

Lemma set_flags_fields : forall chars c c',
    set_flags chars c = Done c' ->
    col c' = col c /\ row_sep c' = row_sep c /\ file c' = file c
    /\ col_sep c' = col_sep c.
Proof.
  induction chars as [|ch chars IH]; intros c c' H.
  - injection H as <-. repeat split.
  - cbn [set_flags] in H.
    destruct (ch =? CHAR_w)%Z; [apply IH in H; exact H|].
    destruct (ch =? CHAR_c)%Z; [apply IH in H; exact H|].
    destruct (ch =? CHAR_f)%Z; [apply IH in H; exact H|].
    discriminate H.
Qed.

Lemma take_positional_ok : forall st s,
    args_ok st -> positionalb s = true -> args_ok (take_positional st s).
Proof.
  intros st s (H1 & H2 & H3 & H4 & H5 & H6) Hs. unfold take_positional.
  destruct (filename st) as [|f0 fs] eqn:Ef; unfold args_ok;
    cbn [args_config filename search_keys].
  - repeat split; try assumption. right. exact Hs.
  - repeat split; try assumption.
    rewrite forallb_app, H6. cbn [forallb]. rewrite Hs. reflexivity.
Qed.

Lemma parse_loop_invariant : forall stoi fuel it st st',
    args_ok st ->
    parse_loop stoi fuel it st = Done (LoopDone st') ->
    args_ok st'.
Proof.
  intros stoi fuel. induction fuel as [|k IH]; intros it st st' Hok H.
  - discriminate H.
  - cbn [parse_loop] in H. destruct it as [|cur rest].
    + injection H as <-. exact Hok.
    + destruct (is_double_dash cur) eqn:Edd.
      * apply IH in H; [exact H|].
        destruct Hok as (H1 & H2 & H3 & H4 & H5 & H6).
        unfold args_ok. cbn [args_config filename search_keys].
        repeat split; assumption.
      * destruct ((2 <=? length cur) && (nth 0 cur 0 =? DASH)%Z
                  && negb (read_literal st)) eqn:Eopt.
        -- destruct (nth 1 cur 0 =? CHAR_h)%Z; [discriminate H|].
           destruct ((nth 1 cur 0 =? CHAR_c) || (nth 1 cur 0 =? CHAR_w)
                     || (nth 1 cur 0 =? CHAR_f))%Z.
           { destruct (set_flags (tl cur) (args_config st)) as [c| | |] eqn:Ef;
               cbn [cli_bind] in H; try discriminate H.
             cbn [cli_bind] in H. apply IH in H; [exact H|].
             destruct (set_flags_fields _ _ Ef) as (F1 & F2 & F3 & _).
             destruct Hok as (H1 & H2 & H3 & H4 & H5 & H6).
             unfold args_ok. cbn [args_config filename search_keys].
             rewrite F1, F2, F3. repeat split; assumption. }
           destruct (nth 1 cur 0 =? CHAR_t)%Z.
           { destruct (ExtractArgument (cur :: rest) ExtractChar)
               as [r| | |]; cbn [cli_bind] in H; try discriminate H.
             cbn [cli_bind] in H. apply IH in H; [exact H|].
             destruct Hok as (H1 & H2 & H3 & H4 & H5 & H6).
             unfold args_ok. cbn [args_config filename search_keys].
             repeat split; assumption. }
           destruct (nth 1 cur 0 =? CHAR_k)%Z; [|discriminate H].
           destruct (ExtractArgument (cur :: rest) (ExtractInt stoi))
             as [r| | |]; cbn [cli_bind] in H; try discriminate H.
           cbn [cli_bind] in H.
           destruct ((fst r >? 255) || (fst r <? 1))%Z eqn:Er;
             [discriminate H|].
           apply IH in H; [exact H|].
           apply orb_false_iff in Er. destruct Er as [Er1 Er2].
           apply Z.ltb_ge in Er2.
           rewrite Z.gtb_ltb in Er1. apply Z.ltb_ge in Er1.
           destruct Hok as (H1 & H2 & H3 & H4 & H5 & H6).
           unfold args_ok. cbn [args_config filename search_keys].
           unfold set_col. cbn [col row_sep file].
           repeat split; try assumption; lia.
        -- destruct cur as [|c0 cur']; [discriminate H|].
           cbn [front cli_bind] in H.
           destruct (negb (c0 =? DASH)%Z || read_literal st);
             [|discriminate H].
           apply IH in H; [exact H|].
           apply take_positional_ok; [exact Hok|].
           unfold positionalb. rewrite Edd. reflexivity.
Qed.

Lemma initial_args_ok : args_ok initial_args.
Proof.
  unfold args_ok, initial_args, initial_config. simpl.
  repeat split; try lia. left. reflexivity.
Qed.

Lemma parse_args_ok : forall stoi args c f ks,
    parse_args stoi args = Done (Parsed c f ks) ->
    exists st,
      args_ok st /\ c = args_config st /\ f = filename st
      /\ ks = search_keys st /\ f <> [].
Proof.
  intros stoi args c f ks H. unfold parse_args in H.
  destruct args as [|prog rest]; [discriminate H|].
  destruct (parse_loop stoi (S (length rest)) rest initial_args)
    as [e| | |] eqn:E; cbn [cli_bind] in H; try discriminate H.
  cbn [cli_bind] in H. destruct e as [|st]; [discriminate H|].
  assert (Hne : filename st <> []) by (intros Ef; rewrite Ef in H; discriminate H).
  destruct (filename st) as [|f0 fs] eqn:Ef; [congruence|].
  injection H as <- <- <-.
  exists st. rewrite Ef.
  split; [|repeat split; discriminate].
  apply (parse_loop_invariant _ _ _ initial_args_ok E).
Qed.

(** Every configuration the argument parser accepts has a key-column index
    between 1 and 255; the row separator is always the line feed, which no
    option changes. *)
Theorem parse_args_config_in_range : forall stoi args c f ks,
    parse_args stoi args = Done (Parsed c f ks) ->
    1 <= col c /\ col c <= 255 /\ row_sep c = LF /\ file c = [].
Proof.
  intros stoi args c f ks H.
  destruct (parse_args_ok _ _ H) as (st & (H1 & H2 & H3 & H4 & _) & -> & _).
  repeat split; assumption.
Qed.

Lemma parse_args_config_in_range_witness :
  parse_args (fun s => Some 3%Z)
             [bytes_of_string "bsq"; bytes_of_string "-k3";
              bytes_of_string "data.tsv"]
  = Done (Parsed (set_col initial_config 3) (bytes_of_string "data.tsv") [])
  /\ 1 <= col (set_col initial_config 3)
  /\ col (set_col initial_config 3) <= 255.
Proof.
  split; [reflexivity|].
  destruct (@parse_args_config_in_range
              (fun s => Some 3%Z)
              [bytes_of_string "bsq"; bytes_of_string "-k3";
               bytes_of_string "data.tsv"]
              (set_col initial_config 3)
              (bytes_of_string "data.tsv") [] eq_refl)
    as (H1 & H2 & _).
  split; assumption.
Defined.



Lemma parse_loop_plain : forall stoi l fuel cfg fn keys,
    forallb plainb l = true ->
    length l < fuel ->
    fn <> [] ->
    parse_loop stoi fuel l (mkArgs cfg fn keys false)
    = Done (LoopDone (mkArgs cfg fn (keys ++ l) false)).
Proof.
  intros stoi l. induction l as [|cur rest IH];
    intros fuel cfg fn keys Hp Hf Hfn;
    (destruct fuel as [|k]; [simpl in Hf; lia|]).
  - cbn [parse_loop]. rewrite app_nil_r. reflexivity.
  - cbn [forallb] in Hp. apply andb_true_iff in Hp. destruct Hp as [Hc Hp].
    destruct cur as [|c0 cur']; [discriminate Hc|]. cbn [plainb] in Hc.
    cbn [parse_loop].
    assert (Hdd : is_double_dash (c0 :: cur') = false).
    { unfold is_double_dash. destruct cur' as [|c1 [|c2 t]]; try reflexivity.
      apply negb_true_iff in Hc. rewrite Hc. reflexivity. }
    rewrite Hdd. cbn [nth].
    apply negb_true_iff in Hc. rewrite Hc, andb_false_r. cbn [andb].
    cbn [front cli_bind]. rewrite Hc. cbn [negb orb].
    unfold take_positional. cbn [filename args_config search_keys].
    destruct fn as [|f0 fs]; [congruence|].
    rewrite IH by (try assumption; simpl in Hf; lia).
    rewrite <- app_assoc. reflexivity.
Qed.

(** When no argument after the program name starts with a dash or is
    empty, the first of them is the file name, the others are the search
    keys in the order given, and the configuration is the default one. *)
Theorem parse_args_plain : forall stoi prog f ks,
    forallb plainb (f :: ks) = true ->
    parse_args stoi (prog :: f :: ks) = Done (Parsed initial_config f ks).
Proof.
  intros stoi prog f ks Hp. cbn [forallb] in Hp.
  apply andb_true_iff in Hp. destruct Hp as [Hf Hks].
  destruct f as [|c0 f']; [discriminate Hf|]. cbn [plainb] in Hf.
  unfold parse_args. cbn [length].
  remember (S (length ks)) as n eqn:En. cbn [parse_loop].
  assert (Hdd : is_double_dash (c0 :: f') = false).
  { unfold is_double_dash. destruct f' as [|c1 [|c2 t]]; try reflexivity.
    apply negb_true_iff in Hf. rewrite Hf. reflexivity. }
  rewrite Hdd. cbn [nth].
  apply negb_true_iff in Hf. rewrite Hf, andb_false_r. cbn [andb].
  cbn [front cli_bind]. rewrite Hf. cbn [negb orb].
  unfold take_positional, initial_args.
  cbn [filename args_config search_keys].
  rewrite parse_loop_plain by (try assumption; try lia; discriminate).
  reflexivity.
Qed.

Lemma parse_args_plain_witness :
  parse_args (fun s => None)
             [bytes_of_string "bsq"; bytes_of_string "data.tsv";
              bytes_of_string "kiwi"; bytes_of_string "ban"]
  = Done (Parsed initial_config (bytes_of_string "data.tsv")
                 [bytes_of_string "kiwi"; bytes_of_string "ban"]).
Proof.
  apply (@parse_args_plain (fun s => None) (bytes_of_string "bsq")
           (bytes_of_string "data.tsv")
           [bytes_of_string "kiwi"; bytes_of_string "ban"] eq_refl).
Defined.

(** After "--" the next argument is taken as the file name or as a search
    key even when it starts with a dash, unless it is empty or is itself
    "--". *)
Theorem double_dash_takes_next_literally : forall stoi k x rest st,
    positionalb x = true ->
    parse_loop stoi (S (S k)) ([DASH; DASH] :: x :: rest) st
    = parse_loop stoi k rest (take_positional st x).
Proof.
  intros stoi k x rest st Hx. unfold positionalb in Hx.
  apply andb_true_iff in Hx. destruct Hx as [Hne Hdd].
  apply negb_true_iff in Hdd.
  destruct x as [|c0 x']; [discriminate Hne|].
  cbn [parse_loop].
  change (is_double_dash [DASH; DASH]) with true. cbv iota.
  rewrite Hdd. cbn [read_literal negb]. rewrite andb_false_r.
  cbn [front cli_bind]. rewrite orb_true_r.
  reflexivity.
Qed.

Lemma double_dash_takes_next_literally_witness :
  parse_loop (fun s => None) 3
             [[DASH; DASH]; bytes_of_string "-k"; bytes_of_string "x"]
             initial_args
  = parse_loop (fun s => None) 1 [bytes_of_string "x"]
               (take_positional initial_args (bytes_of_string "-k")).
Proof.
  apply (@double_dash_takes_next_literally (fun s => None) 1
           (bytes_of_string "-k") [bytes_of_string "x"] initial_args eq_refl).
Defined.

Lemma ExtractArgument_defined :
  forall (T : Type) (parse : list byte -> cli T) cur rest,
    (forall s, s <> [] ->
               (exists v, parse s = Done v) \/ exists e, parse s = Raise e) ->
    (exists v p,
        ExtractArgument (cur :: rest) parse = Done (v, p)
        /\ (p = cur :: rest \/ exists a more, rest = a :: more /\ p = rest))
    \/ exists e, ExtractArgument (cur :: rest) parse = Raise e.
Proof.
  intros T parse cur rest Hparse.
  destruct (ExtractArgument_cases parse cur rest)
    as [[H E] | [(H & c & t & more & Hr & E) | (H & a & E & _)]].
  - rewrite E.
    destruct (Hparse (skipn 2 cur)) as [[v Hv] | [e He]].
    + destruct cur as [|a [|b [|c t]]]; simpl in H; try lia. discriminate.
    + left. exists v, (cur :: rest). rewrite Hv.
      split; [reflexivity | left; reflexivity].
    + right. exists e. rewrite He. reflexivity.
  - rewrite E.
    destruct (Hparse (c :: t)) as [[v Hv] | [e He]]; [discriminate | |].
    + left. exists v, rest. rewrite Hv.
      split; [reflexivity | right; exists (c :: t), more; split;
                            [exact Hr | reflexivity]].
    + right. exists e. rewrite He. reflexivity.
  - right. exists (ArgumentNotFound a). exact E.
Qed.

Lemma set_flags_defined : forall chars c,
    (exists c', set_flags chars c = Done c')
    \/ exists e, set_flags chars c = Raise e.
Proof.
  induction chars as [|ch chars IH]; intros c.
  - left. eexists. reflexivity.
  - cbn [set_flags].
    destruct (ch =? CHAR_w)%Z; [apply IH|].
    destruct (ch =? CHAR_c)%Z; [apply IH|].
    destruct (ch =? CHAR_f)%Z; [apply IH|].
    right. eexists. reflexivity.
Qed.

Lemma parse_loop_defined : forall stoi fuel it st,
    forallb nonemptyb it = true ->
    length it < fuel ->
    (exists e, parse_loop stoi fuel it st = Done e)
    \/ exists err, parse_loop stoi fuel it st = Raise err.
Proof.
  intros stoi fuel. induction fuel as [|k IH]; intros it st Hne Hf; [lia|].
  cbn [parse_loop]. destruct it as [|cur rest].
  - left. eexists. reflexivity.
  - cbn [forallb] in Hne. apply andb_true_iff in Hne.
    destruct Hne as [Hcur Hrest]. cbn [length] in Hf.
    destruct (is_double_dash cur); [apply IH; [exact Hrest | lia]|].
    destruct ((2 <=? length cur) && (nth 0 cur 0 =? DASH)%Z
              && negb (read_literal st)).
    + destruct (nth 1 cur 0 =? CHAR_h)%Z; [left; eexists; reflexivity|].
      destruct ((nth 1 cur 0 =? CHAR_c) || (nth 1 cur 0 =? CHAR_w)
                || (nth 1 cur 0 =? CHAR_f))%Z.
      { destruct (set_flags_defined (tl cur) (args_config st))
          as [[c' E] | [e E]]; rewrite E; cbn [cli_bind].
        - apply IH; [exact Hrest | lia].
        - right. eexists. reflexivity. }
      destruct (nth 1 cur 0 =? CHAR_t)%Z.
      { destruct (@ExtractArgument_defined _ ExtractChar cur rest)
          as [(v & p & E & Hp) | [e E]].
        - intros s Hs. left. destruct s; [congruence|].
          eexists. reflexivity.
        - rewrite E. cbn [cli_bind snd fst].
          destruct Hp as [-> | (a & more & -> & ->)]; cbn [tl].
          + apply IH; [exact Hrest | lia].
          + cbn [forallb] in Hrest. apply andb_true_iff in Hrest.
            apply IH; [tauto | simpl in Hf; lia].
        - rewrite E. right. eexists. reflexivity. }
      destruct (nth 1 cur 0 =? CHAR_k)%Z; [|right; eexists; reflexivity].
      destruct (@ExtractArgument_defined _ (ExtractInt stoi) cur rest)
        as [(v & p & E & Hp) | [e E]].
      * intros s Hs. unfold ExtractInt.
        destruct (stoi s); [left | right]; eexists; reflexivity.
      * rewrite E. cbn [cli_bind snd fst].
        destruct ((v >? 255) || (v <? 1))%Z; [right; eexists; reflexivity|].
        destruct Hp as [-> | (a & more & -> & ->)]; cbn [tl].
        -- apply IH; [exact Hrest | lia].
        -- cbn [forallb] in Hrest. apply andb_true_iff in Hrest.
           apply IH; [tauto | simpl in Hf; lia].
      * rewrite E. right. eexists. reflexivity.
    + destruct cur as [|c0 cur']; [discriminate Hcur|].
      cbn [front cli_bind].
      destruct (negb (c0 =? DASH)%Z || read_literal st);
        [apply IH; [exact Hrest | lia] | right; eexists; reflexivity].
Qed.

(** When the argument vector holds the program name and no argument is the
    empty string, parsing ends with an outcome or with one of its errors,
    whatever [std::stoi] does: [front()] is never applied to an empty
    string and the loop over the arguments terminates. *)
Theorem parse_args_defined : forall stoi prog rest,
    forallb nonemptyb rest = true ->
    (exists o, parse_args stoi (prog :: rest) = Done o)
    \/ exists err, parse_args stoi (prog :: rest) = Raise err.
Proof.
  intros stoi prog rest Hne. unfold parse_args.
  destruct (@parse_loop_defined stoi (S (length rest)) rest initial_args Hne)
    as [[e E] | [err E]]; [lia | |]; rewrite E; cbn [cli_bind].
  - left. destruct e as [|st]; [eexists; reflexivity|].
    destruct (filename st); eexists; reflexivity.
  - right. eexists. reflexivity.
Qed.

Lemma parse_args_defined_witness :
  (exists o,
      parse_args (fun s => None)
                 [bytes_of_string "bsq"; bytes_of_string "-k";
                  bytes_of_string "x"] = Done o)
  \/ exists err,
      parse_args (fun s => None)
                 [bytes_of_string "bsq"; bytes_of_string "-k";
                  bytes_of_string "x"] = Raise err.
Proof.
  apply (@parse_args_defined (fun s => None) (bytes_of_string "bsq")
           [bytes_of_string "-k"; bytes_of_string "x"] eq_refl).
Defined.

(** ** The search keys and the runs *)

Lemma getline_rows : forall delim input,
    input <> [] ->
    rows delim input
    = fst (getline delim input) :: rows delim (snd (getline delim input))
    /\ length (snd (getline delim input)) < length input.
Proof.
  intros delim input. induction input as [|c t IH]; intros Hne; [congruence|].
  cbn [rows getline]. destruct (c =? delim)%Z.
  - cbn [fst snd length]. split; [reflexivity | lia].
  - destruct (rows delim t) as [|r rr] eqn:Er.
    + apply rows_nil_inv in Er. subst t. cbn. split; [reflexivity | lia].
    + assert (Ht : t <> []) by (intros ->; discriminate Er).
      destruct (IH Ht) as [IH1 IH2].
      injection IH1 as -> ->.
      destruct (getline delim t) as [key rest].
      cbn [fst snd length] in *. split; [reflexivity | lia].
Qed.

Lemma read_keys_rows : forall delim fuel input,
    length input < fuel ->
    read_keys fuel delim input = Done (rows delim input).
Proof.
  intros delim fuel. induction fuel as [|k IH]; intros input Hf; [lia|].
  cbn [read_keys]. destruct input as [|c t]; [reflexivity|].
  destruct (@getline_rows delim (c :: t)) as [H1 H2]; [discriminate|].
  rewrite H1. destruct (getline delim (c :: t)) as [key rest].
  cbn [fst snd] in *. rewrite IH by lia. reflexivity.
Qed.

(** Outside check mode and with no search key on the command line, the
    keys are the rows of the standard input under the row separator: an
    empty line is an empty key, and a separator that ends the input does
    not add one. *)
Theorem select_keys_from_stdin : forall config stdin,
    check config = false ->
    select_keys config [] stdin = Done (rows (row_sep config) stdin).
Proof.
  intros config stdin Hck. unfold select_keys. rewrite Hck.
  apply read_keys_rows. lia.
Qed.

Lemma select_keys_from_stdin_witness :
  select_keys (default_config fruit) []
              (bytes_of_string "ban" ++ [LF; LF] ++ bytes_of_string "kiwi")
  = Done [bytes_of_string "ban"; []; bytes_of_string "kiwi"].
Proof.
  apply (@select_keys_from_stdin (default_config fruit)
           (bytes_of_string "ban" ++ [LF; LF] ++ bytes_of_string "kiwi")
           eq_refl).
Defined.

Lemma run_keys_sorted : forall config keys os,
    check config = false ->
    1 <= col config ->
    all_enough_columns config = true ->
    sorted_by_key config = true ->
    run_keys config keys os
    = (os ++ flat_map
               (fun key =>
                  emit config
                       (filter (fun r => is_matchb config key
                                                   (key_column config r))
                               (rows (row_sep config) (file config))))
               keys,
       Ok tt).
Proof.
  intros config keys. induction keys as [|key keys IH];
    intros os Hck Hcol Hen Hs.
  - simpl. rewrite app_nil_r. reflexivity.
  - cbn [run_keys flat_map]. rewrite Run_search_sorted by assumption.
    rewrite IH by assumption. rewrite app_assoc. reflexivity.
Qed.

(** On a sorted buffer whose rows all have enough columns, searching
    several keys writes, for each key in the order given, the rows that
    match it, one key's rows after the other's; a key without a match
    contributes nothing and is no error. *)
Theorem run_keys_concatenates : forall config keys,
    check config = false ->
    1 <= col config ->
    all_enough_columns config = true ->
    sorted_by_key config = true ->
    run_keys config keys []
    = (flat_map
         (fun key =>
            emit config
                 (filter (fun r => is_matchb config key (key_column config r))
                         (rows (row_sep config) (file config))))
         keys,
       Ok tt).
Proof.
  intros config keys Hck Hcol Hen Hs.
  apply (run_keys_sorted config keys [] Hck Hcol Hen Hs).
Qed.

Lemma run_keys_concatenates_witness :
  run_keys (default_config fruit)
           [bytes_of_string "cherry"; bytes_of_string "kiwi";
            bytes_of_string "ban"] []
  = (line "cherry" "5" ++ line "banana" "3" ++ line "banana" "4", Ok tt).
Proof.
  rewrite (@run_keys_concatenates (default_config fruit)
             [bytes_of_string "cherry"; bytes_of_string "kiwi";
              bytes_of_string "ban"] eq_refl (le_n 1) eq_refl eq_refl).
  reflexivity.
Defined.





